(** * The join engine of [pipeline.py]

    A shallow embedding of the two pieces of [src/pipeline.py] that carry an
    algorithmic contract:

    - [process_artists] (lines 14-37): the projection of a raw artist row
      followed by the linear resolution of its [gender] and [area] codes
      against two side-input tables;
    - [UnSetCoGroup.process] (lines 84-106): the merge that finishes an
      equi-join after Beam's [CoGroupByKey].

    Python dictionaries are finite maps from field names to scalars.  The
    records handled by the merge are mutable objects that the generator
    yields by reference, so they live in a store indexed by object identity,
    and every [yield] is recorded with the identity of the yielded object and
    with the content the object has at that moment. *)

From stdpp Require Import base option list strings gmap fin_maps.

Open Scope string_scope.

(** ** Python scalars *)

(** The values a record field may hold after [json.loads]: [None], a
    boolean, an integer or a string.  (Floating point numbers and nested
    containers are outside this model.) *)
Inductive val : Type :=
  | VNone
  | VBool (b : bool)
  | VInt (n : Z)
  | VStr (s : string).

#[global] Instance val_eq_dec : EqDecision val.
Proof. solve_decision. Defined.

#[global] Instance val_inhabited : Inhabited val := populate VNone.

(** Python's [==] on these scalars: [bool] is a subclass of [int], so
    [True == 1] and [False == 0]; values of unrelated types are unequal. *)
Definition py_eq (a b : val) : bool :=
  match a, b with
  | VNone, VNone => true
  | VBool x, VBool y => bool_decide (x = y)
  | VBool x, VInt n | VInt n, VBool x => bool_decide (Z.b2z x = n)
  | VInt n, VInt m => bool_decide (n = m)
  | VStr s, VStr t => bool_decide (s = t)
  | _, _ => false
  end.

(** Python's truth value: [None], [False], [0] and the empty string are
    falsy. *)
Definition truthy (v : val) : bool :=
  match v with
  | VNone => false
  | VBool b => b
  | VInt n => negb (bool_decide (n = 0%Z))
  | VStr EmptyString => false
  | VStr (String _ _) => true
  end.

(** ** Exceptions *)

(** The only exception the modelled code can raise on dictionaries:
    subscripting with an absent key. *)
Inductive exn : Type :=
  | KeyError (k : string).

Inductive result (A : Type) : Type :=
  | Ok (a : A)
  | Raise (e : exn).
Arguments Ok {A} a.
Arguments Raise {A} e.

#[global] Instance result_ret : MRet result := λ A a, Ok a.
#[global] Instance result_bind : MBind result := λ A B f m,
  match m with
  | Ok a => f a
  | Raise e => Raise e
  end.

(** ** Dictionaries *)

Abbreviation dict := (gmap string val).

(** [d[k]] *)
Definition getitem {V} (d : gmap string V) (k : string) : result V :=
  match d !! k with
  | Some v => Ok v
  | None => Raise (KeyError k)
  end.

(** ** [process_artists] *)

(** Lines 23-29: the dictionary display evaluates its values in the order
    they are written, so the first absent key is the one reported. *)
Definition reduce_row (row : dict) : result dict :=
  id ← getitem row "id";
  gid ← getitem row "gid";
  name ← getitem row "name";
  area ← getitem row "area";
  gender ← getitem row "gender";
  Ok (<["gender" := gender]> (<["area" := area]> (<["artist_name" := name]>
       (<["artist_gid" := gid]> (<["id" := id]> ∅))))).

(** The shared shape of the two loops of lines 31-33 and 34-36:
    [for g in table: if g['id'] == reduced_row[field]: reduced_row[field] = g['name']].
    There is no [break]: the scan goes on over the whole table and compares
    the later entries with the field's updated value. *)
Fixpoint scan (field : string) (table : list dict) (reduced_row : dict)
  : result dict :=
  match table with
  | [] => Ok reduced_row
  | g :: table' =>
      gid ← getitem g "id";
      cur ← getitem reduced_row field;
      if py_eq gid cur
      then name ← getitem g "name";
           scan field table' (<[field := name]> reduced_row)
      else scan field table' reduced_row
  end.

(** Lines 30-36: the gender scan is guarded by the truth value of the
    field, the area scan is not. *)
Definition resolve (reduced_row : dict) (gender area : list dict)
  : result dict :=
  gv ← getitem reduced_row "gender";
  reduced_row ← (if truthy gv then scan "gender" gender reduced_row
                 else Ok reduced_row);
  scan "area" area reduced_row.

(** Lines 14-37. *)
Definition process_artists (row : dict) (gender area : list dict)
  : result (val * dict) :=
  reduced_row ← reduce_row row;
  reduced_row ← resolve reduced_row gender area;
  id ← getitem reduced_row "id";
  Ok (id, reduced_row).

(** Lines 40-50, after [json.loads]. *)
Definition process_gender_or_area (row : dict) : result dict :=
  id ← getitem row "id";
  name ← getitem row "name";
  Ok (<["name" := name]> (<["id" := id]> ∅)).

(** Lines 53-64, after [json.loads]. *)
Definition process_artist_credit (row : dict) : result (val * dict) :=
  artist_credit ← getitem row "artist_credit";
  artist ← getitem row "artist";
  let reduced_row := <["artist" := artist]> (<["artist_credit" := artist_credit]> ∅) in
  key ← getitem reduced_row "artist";
  Ok (key, reduced_row).

(** Lines 67-81, after [json.loads]. *)
Definition process_recording (row : dict) : result (val * dict) :=
  name ← getitem row "name";
  length ← getitem row "length";
  gid ← getitem row "gid";
  video ← getitem row "video";
  artist_credit ← getitem row "artist_credit";
  let reduced_row :=
    <["artist_credit" := artist_credit]> (<["video" := video]>
      (<["recording_gid" := gid]> (<["length" := length]>
        (<["recording_name" := name]> ∅)))) in
  key ← getitem reduced_row "artist_credit";
  Ok (key, reduced_row).

(** ** [UnSetCoGroup.process] *)

(** Records are Python objects: the store maps the identity of an object to
    its current content.  Every reference the code handles points to a live
    object; the total lookup [h !!! l] is only a convenience. *)
Abbreviation loc := nat.
Abbreviation heap := (gmap loc dict).

(** Lines 103-105, on the contents of the two objects:
    [for k, v in join.items(): if k != exclude_join_field: src[k] = v].
    The keys of a dictionary are distinct, so the order in which [items()]
    enumerates them does not show in the result ([assign_items_lookup]). *)
Definition assign_items (exclude_join_field : string) (join src : dict) : dict :=
  map_fold (λ k v src, if decide (k ≠ exclude_join_field)
                       then <[k := v]> src else src) src join.

(** The same lines on the store: the object [src] is updated in place. *)
Definition assign_into (exclude_join_field : string) (src join : loc) (h : heap)
  : heap :=
  <[src := assign_items exclude_join_field (h !!! join) (h !!! src)]> h.

(** One [yield]: the reference that is handed out, and what the object holds
    when it is handed out. *)
Record emitted : Type := Emit { obj : loc; seen : dict }.

(** Lines 102-106 for one [src]. *)
Fixpoint for_joins (exclude_join_field : string) (src : loc) (joins : list loc)
    (h : heap) : list emitted * heap :=
  match joins with
  | [] => ([], h)
  | join :: joins' =>
      let h1 := assign_into exclude_join_field src join h in
      let r := for_joins exclude_join_field src joins' h1 in
      (Emit src (h1 !!! src) :: r.1, r.2)
  end.

(** Lines 101-106. *)
Fixpoint for_sources (exclude_join_field : string) (sources joins : list loc)
    (h : heap) : list emitted * heap :=
  match sources with
  | [] => ([], h)
  | src :: sources' =>
      let r1 := for_joins exclude_join_field src joins h in
      let r2 := for_sources exclude_join_field sources' joins r1.2 in
      ((r1.1 ++ r2.1)%list, r2.2)
  end.

(** Lines 98-106, run to exhaustion: all the yields in order, and the store
    the generator leaves behind. *)
Definition process (h : heap) (element : val * gmap string (list loc))
    (source joined exclude_join_field : string)
  : result (list emitted * heap) :=
  let '(_, grouped_dict) := element in
  sources ← getitem grouped_dict source;
  joins ← getitem grouped_dict joined;
  Ok (for_sources exclude_join_field sources joins h).

(** The value [CoGroupByKey] pairs with a key: the two groups under their
    tags, as in [{source: sources, joined: joins}]. *)
Definition grouped (source joined : string) (sources joins : list loc)
  : gmap string (list loc) :=
  <[joined := joins]> (<[source := sources]> ∅).

(** The group of the key [k] in a keyed collection: the values paired with
    [k], in order. *)
Definition group_of (k : val) (kvs : list (val * loc)) : list loc :=
  (filter (λ kv, kv.1 = k) kvs).*2.

(** Beam's [CoGroupByKey] applied to [{source: left, joined: right}], as
    its documentation describes it: one element for each key that occurs on
    either side, in which every tag is present, with the possibly empty list
    of the values that carry the key on that side.  (Beam compares keys by
    their encoding, hence structurally.) *)
Definition co_group_by_key (source joined : string)
    (left right : list (val * loc)) : list (val * gmap string (list loc)) :=
  (λ k, (k, grouped source joined (group_of k left) (group_of k right)))
    <$> remove_dups (left.*1 ++ right.*1)%list.

(** ** The merge as the specification words it *)

(** A copy of [src] with every field of [join] except [exclude_field] copied
    over it, the right-hand value winning on a collision. *)
Definition merged_copy (exclude_field : string) (src join : dict) : dict :=
  delete exclude_field join ∪ src.

(** The records the specification asks for: one [merged_copy] for each pair,
    in the order of the two loops. *)
Definition cartesian_merge (exclude_field : string) (sources joins : list dict)
  : list dict :=
  src ← sources; join ← joins; [merged_copy exclude_field src join].

(** The content of a left-hand object after the assignments of lines
    103-105 have run for the right-hand contents [joins], in order. *)
Definition apply_joins (exclude_join_field : string) (src : dict)
    (joins : list dict) : dict :=
  foldl (λ src join, assign_items exclude_join_field join src) src joins.

(** ** Reference tables *)

(** The shape [process_gender_or_area] documents for a table entry:
    [{id: int, name: string}]. *)
Definition is_ref_entry (g : dict) : Prop :=
  ∃ n s, g !! "id" = Some (VInt n) ∧ g !! "name" = Some (VStr s).

Definition has_int_id (g : dict) : Prop :=
  ∃ n, g !! "id" = Some (VInt n).

(** A reference table: well-shaped entries, no [id] twice. *)
Definition ref_table (table : list dict) : Prop :=
  Forall is_ref_entry table ∧ NoDup ((λ g : dict, g !! "id") <$> table).

(** [g] is an entry of [table] whose [id] equals [v]. *)
Definition matches (table : list dict) (v : val) (g : dict) : Prop :=
  g ∈ table ∧ ∃ i, g !! "id" = Some i ∧ py_eq i v = true.

(** [g] has an [id], and it differs from [v]. *)
Definition misses (v : val) (g : dict) : Prop :=
  ∃ i, g !! "id" = Some i ∧ py_eq i v = false.

(** The fields [reduce_row] reads. *)
Definition artist_fields : list string :=
  ["id"; "gid"; "name"; "area"; "gender"].

(** ** Sample data *)

Definition entry (id : Z) (name : string) : dict :=
  <["name" := VStr name]> (<["id" := VInt id]> ∅).

Definition raw_artist (id : Z) (gid name : string) (area gender : val) : dict :=
  <["gender" := gender]> (<["area" := area]> (<["name" := VStr name]>
    (<["gid" := VStr gid]> (<["id" := VInt id]> ∅)))).

Definition artist (id : Z) (gid name : string) (area gender : val) : dict :=
  <["gender" := gender]> (<["area" := area]> (<["artist_name" := VStr name]>
    (<["artist_gid" := VStr gid]> (<["id" := VInt id]> ∅)))).

Definition credit (artist_credit artist : Z) : dict :=
  <["artist" := VInt artist]> (<["artist_credit" := VInt artist_credit]> ∅).

(** A store holding the given objects at the identities [0], [1], ... *)
Definition store (objs : list dict) : heap := map_seq 0 objs.

(** ** The composition in [main] *)

(** Line 190, the step between the two merges:
    [lambda e: (e['artist_credit'], e)]. *)
Definition rekey (e : dict) : result (val * dict) :=
  artist_credit ← getitem e "artist_credit";
  Ok (artist_credit, e).

(** Lines 135-148: the fields of [table_schema], each with its name, mode
    and type. *)
Definition table_schema : list (string * string * string) :=
  [("id", "NULLABLE", "INTEGER");
   ("artist_gid", "NULLABLE", "STRING");
   ("artist_name", "NULLABLE", "STRING");
   ("area", "NULLABLE", "STRING");
   ("gender", "NULLABLE", "STRING");
   ("artist_credit", "NULLABLE", "INTEGER");
   ("recording_name", "NULLABLE", "STRING");
   ("length", "NULLABLE", "INTEGER");
   ("recording_gid", "NULLABLE", "STRING");
   ("video", "NULLABLE", "BOOLEAN")].

Definition schema_names : list string := (λ f, f.1.1) <$> table_schema.

(** * Properties *)

(** Membership and non-membership in a list that is written out. *)
Ltac in_list :=
  repeat first [apply list_elem_of_here | apply list_elem_of_further].
Ltac not_in_list :=
  rewrite ?not_elem_of_cons; split_and?;
  first [discriminate | apply not_elem_of_nil].

(** ** The error monad *)

Lemma bind_Ok {A B} (f : A → result B) (a : A) : (Ok a ≫= f) = f a.
Proof. reflexivity. Qed.

Lemma getitem_Some {V} (d : gmap string V) k v :
  d !! k = Some v → getitem d k = Ok v.
Proof. unfold getitem. by intros ->. Qed.

Lemma getitem_None {V} (d : gmap string V) k :
  d !! k = None → getitem d k = Raise (KeyError k).
Proof. unfold getitem. by intros ->. Qed.

Lemma getitem_inv {V} (d : gmap string V) k r :
  getitem d k = r →
  (∃ v, d !! k = Some v ∧ r = Ok v) ∨ (d !! k = None ∧ r = Raise (KeyError k)).
Proof.
  unfold getitem. intros <-. destruct (d !! k) as [v|]; [left|right]; eauto.
Qed.

(** ** Comparison of scalars *)

Lemma py_eq_int_str n s : py_eq (VInt n) (VStr s) = false.
Proof. reflexivity. Qed.


(** Two integers that both equal [v] are the same integer. *)
Lemma py_eq_int_unique n m v :
  py_eq (VInt n) v = true → py_eq (VInt m) v = true → n = m.
Proof.
  destruct v as [|b|k|s]; unfold py_eq; try discriminate;
    rewrite !bool_decide_eq_true; congruence.
Qed.

(** ** The scan of a table *)

Lemma scan_cons field g table rr i cur :
  g !! "id" = Some i →
  rr !! field = Some cur →
  scan field (g :: table) rr =
    if py_eq i cur
    then name ← getitem g "name"; scan field table (<[field := name]> rr)
    else scan field table rr.
Proof.
  intros Hid Hf. cbn [scan].
  by rewrite (getitem_Some _ _ _ Hid), bind_Ok, (getitem_Some _ _ _ Hf), bind_Ok.
Qed.

Lemma is_ref_entry_has_int_id g : is_ref_entry g → has_int_id g.
Proof. intros (n & s & Hid & _). by exists n. Qed.

(** A field that already holds a string is left alone by a table whose ids
    are integers. *)
Lemma scan_string_noop field table rr s :
  Forall has_int_id table →
  rr !! field = Some (VStr s) →
  scan field table rr = Ok rr.
Proof.
  intros Htab Hf. induction Htab as [|g table [n Hid] _ IH]; [done|].
  by rewrite (scan_cons _ _ _ _ _ _ Hid Hf), py_eq_int_str.
Qed.

(** On a table of well-shaped entries the scan never raises and touches the
    scanned field only. *)
Lemma scan_shape field table rr v :
  Forall is_ref_entry table →
  rr !! field = Some v →
  ∃ w, scan field table rr = Ok (<[field := w]> rr) ∧
       ((w = v ∧ ∀ g, ¬ matches table v g) ∨
        (∃ g s, matches table v g ∧ g !! "name" = Some (VStr s) ∧ w = VStr s)).
Proof.
  intros Htab. revert rr.
  induction Htab as [|g table Hg Htab IH]; intros rr Hf.
  - exists v. split; [by rewrite insert_id|]. left. split; [done|].
    intros g [Hin _]. by apply elem_of_nil in Hin.
  - destruct Hg as (n & s & Hid & Hname).
    rewrite (scan_cons _ _ _ _ _ _ Hid Hf).
    destruct (py_eq (VInt n) v) eqn:Heq.
    + rewrite (getitem_Some _ _ _ Hname), bind_Ok.
      exists (VStr s). split.
      * rewrite (scan_string_noop field table _ s); [done| |by rewrite lookup_insert_eq].
        eapply Forall_impl; [exact Htab|]. apply is_ref_entry_has_int_id.
      * right. exists g, s. repeat split; [left|eauto|done].
    + destruct (IH rr Hf) as (w & Hscan & Hw). exists w. split; [done|].
      destruct Hw as [[-> Hno]|(g' & s' & [Hin Hm] & Hn' & ->)].
      * left. split; [done|]. intros g' [Hin (i & Hi & Hm)].
        apply elem_of_cons in Hin as [->|Hin]; [|by eapply Hno; split; eauto].
        rewrite Hid in Hi. injection Hi as <-. congruence.
      * right. exists g', s'. repeat split; [by right|done|done].
Qed.

(** With no [id] twice, the entry that matches is the only one. *)
Lemma matches_unique table v g g' :
  ref_table table → matches table v g → matches table v g' → g = g'.
Proof.
  intros [Htab Hnd] [Hin (i & Hi & Hm)] [Hin' (i' & Hi' & Hm')].
  assert (g !! "id" = g' !! "id") as Hsame.
  { rewrite Forall_forall in Htab.
    destruct (Htab g Hin) as (n & ? & Hn & _), (Htab g' Hin') as (n' & ? & Hn' & _).
    rewrite Hn in Hi. rewrite Hn' in Hi'. injection Hi as <-. injection Hi' as <-.
    rewrite Hn, Hn'. f_equal. f_equal. by eapply py_eq_int_unique. }
  apply list_elem_of_lookup in Hin as [a Ha], Hin' as [b Hb].
  assert (a = b) as ->; [|congruence].
  eapply NoDup_lookup; [exact Hnd| |]; rewrite list_lookup_fmap.
  - rewrite Ha. reflexivity.
  - rewrite Hb. simpl. by rewrite Hsame.
Qed.

(** The scan of one field against a reference table. *)
Lemma scan_ref_table field table rr v :
  ref_table table →
  rr !! field = Some v →
  ∃ w, scan field table rr = Ok (<[field := w]> rr) ∧
       (∀ g, matches table v g → g !! "name" = Some w ∧ ∃ s, w = VStr s) ∧
       ((∀ g, ¬ matches table v g) → w = v).
Proof.
  intros Href Hf. destruct (scan_shape field table rr v (proj1 Href) Hf)
    as (w & Hscan & Hw).
  exists w. split; [done|].
  destruct Hw as [[-> Hno]|(g & s & Hm & Hn & ->)].
  - split; [|done]. intros g Hm. by destruct (Hno g).
  - split.
    + intros g' Hm'. rewrite <- (matches_unique table v g g' Href Hm Hm'). eauto.
    + intros Hno. by destruct (Hno g).
Qed.

(** A scan leaves every other field as it was, whatever the table holds. *)
Lemma scan_other_field field table rr rr' f :
  f ≠ field → scan field table rr = Ok rr' → rr' !! f = rr !! f.
Proof.
  intros Hne. revert rr. induction table as [|g table IH]; intros rr Hscan.
  - by injection Hscan as <-.
  - cbn [scan] in Hscan.
    destruct (getitem g "id") as [i|]; [|done]. rewrite bind_Ok in Hscan.
    destruct (getitem rr field) as [cur|]; [|done]. rewrite bind_Ok in Hscan.
    destruct (py_eq i cur); [|by apply IH].
    destruct (getitem g "name") as [name|]; [|done]. rewrite bind_Ok in Hscan.
    rewrite (IH _ Hscan). by rewrite lookup_insert_ne.
Qed.

(** The outcome of a scan for the scanned field, be it a value or an
    exception, is determined by the table and by the value the field holds. *)
Lemma scan_field_only field table rr1 rr2 :
  rr1 !! field = rr2 !! field →
  match scan field table rr1, scan field table rr2 with
  | Ok rr1', Ok rr2' => rr1' !! field = rr2' !! field
  | Raise e1, Raise e2 => e1 = e2
  | _, _ => False
  end.
Proof.
  revert rr1 rr2. induction table as [|g table IH]; intros rr1 rr2 Hf; [done|].
  cbn [scan]. destruct (getitem g "id") as [i|]; [|done]. rewrite !bind_Ok.
  destruct (rr2 !! field) as [cur|] eqn:Hcur.
  2: { by rewrite (getitem_None rr1 field), (getitem_None rr2 field) by congruence. }
  rewrite (getitem_Some rr1 field cur), (getitem_Some rr2 field cur) by congruence.
  rewrite !bind_Ok.
  destruct (py_eq i cur); [|apply IH; congruence].
  destruct (getitem g "name") as [name|]; [|done]. rewrite !bind_Ok.
  apply IH. by rewrite !lookup_insert_eq.
Qed.

(** ** The resolver *)

Lemma resolve_unfold rr gender area gv :
  rr !! "gender" = Some gv →
  resolve rr gender area =
    (if truthy gv then scan "gender" gender rr else Ok rr)
      ≫= scan "area" area.
Proof. intros Hg. unfold resolve. by rewrite (getitem_Some _ _ _ Hg). Qed.

(** The resolver on two reference tables: it returns, and each of the two
    fields is settled by its own table. *)
Lemma resolve_ref_tables rr G A vg va :
  ref_table A →
  truthy vg = false ∨ ref_table G →
  rr !! "gender" = Some vg →
  rr !! "area" = Some va →
  ∃ wg wa, resolve rr G A = Ok (<["area" := wa]> (<["gender" := wg]> rr)) ∧
    (truthy vg = false → wg = vg) ∧
    (truthy vg = true →
       (∀ g, matches G vg g → g !! "name" = Some wg ∧ ∃ s, wg = VStr s) ∧
       ((∀ g, ¬ matches G vg g) → wg = vg)) ∧
    (∀ g, matches A va g → g !! "name" = Some wa ∧ ∃ s, wa = VStr s) ∧
    ((∀ g, ¬ matches A va g) → wa = va).
Proof.
  intros HA HG Hg Ha. rewrite (resolve_unfold _ _ _ _ Hg).
  destruct (truthy vg) eqn:Ht.
  - destruct HG as [|HG]; [done|].
    destruct (scan_ref_table "gender" G rr vg HG Hg) as (wg & -> & Hm & Hno).
    rewrite bind_Ok.
    destruct (scan_ref_table "area" A (<["gender" := wg]> rr) va HA)
      as (wa & -> & Hm' & Hno'); [by rewrite lookup_insert_ne|].
    exists wg, wa. by split_and!.
  - rewrite bind_Ok.
    destruct (scan_ref_table "area" A rr va HA Ha) as (wa & -> & Hm' & Hno').
    exists vg, wa. rewrite (insert_id rr "gender" vg Hg). by split_and!.
Qed.

(** The two fields do not interfere: what [resolve] leaves in [gender]
    depends on the gender value and the gender table only, and likewise for
    [area]. *)
Lemma resolve_gender_only rr1 rr2 G A1 A2 rr1' rr2' :
  rr1 !! "gender" = rr2 !! "gender" →
  resolve rr1 G A1 = Ok rr1' → resolve rr2 G A2 = Ok rr2' →
  rr1' !! "gender" = rr2' !! "gender".
Proof.
  intros Hg H1 H2.
  destruct (rr2 !! "gender") as [gv|] eqn:Hgv.
  2: { unfold resolve in H2. by rewrite (getitem_None _ _ Hgv) in H2. }
  rewrite (resolve_unfold _ _ _ gv) in H1 by congruence.
  rewrite (resolve_unfold _ _ _ gv) in H2 by done.
  pose proof (scan_field_only "gender" G rr1 rr2) as Hs. rewrite Hg, Hgv in Hs.
  specialize (Hs eq_refl).
  destruct (truthy gv).
  - destruct (scan "gender" G rr1) as [a|]; [|done].
    destruct (scan "gender" G rr2) as [b|]; [|done].
    rewrite bind_Ok in H1, H2.
    rewrite (scan_other_field "area" _ _ _ "gender" ltac:(done) H1).
    by rewrite (scan_other_field "area" _ _ _ "gender" ltac:(done) H2).
  - rewrite bind_Ok in H1, H2.
    rewrite (scan_other_field "area" _ _ _ "gender" ltac:(done) H1).
    rewrite (scan_other_field "area" _ _ _ "gender" ltac:(done) H2). congruence.
Qed.

Lemma resolve_area_only rr1 rr2 G1 G2 A rr1' rr2' :
  rr1 !! "area" = rr2 !! "area" →
  resolve rr1 G1 A = Ok rr1' → resolve rr2 G2 A = Ok rr2' →
  rr1' !! "area" = rr2' !! "area".
Proof.
  intros Ha H1 H2. unfold resolve in H1, H2.
  destruct (getitem rr1 "gender") as [gv1|]; [|done].
  destruct (getitem rr2 "gender") as [gv2|]; [|done].
  rewrite bind_Ok in H1, H2.
  assert (∀ (b : bool) G rr (m : dict),
    (if b then scan "gender" G rr else Ok rr) = Ok m →
    m !! "area" = rr !! "area") as Hkeep.
  { intros [] G rr m Hm; [|by injection Hm as <-].
    by apply (scan_other_field "gender" G). }
  destruct (if truthy gv1 then _ else _) as [m1|] eqn:E1; [|done].
  destruct (if truthy gv2 then _ else _) as [m2|] eqn:E2; [|done].
  rewrite bind_Ok in H1, H2.
  pose proof (scan_field_only "area" A m1 m2) as Hs.
  rewrite (Hkeep _ _ _ _ E1), (Hkeep _ _ _ _ E2) in Hs. specialize (Hs Ha).
  by rewrite H1, H2 in Hs.
Qed.

(** ** Scenario A *)

Example scenario_A :
  process_artists
    (<["gender" := VInt 1]> (<["area" := VNone]> (<["name" := VStr "Bob"]>
       (<["gid" := VStr "g1"]> (<["id" := VInt 5]> ∅)))))
    [<["name" := VStr "Male"]> (<["id" := VInt 1]> ∅)] []
  = Ok (VInt 5,
        <["gender" := VStr "Male"]> (<["area" := VNone]>
          (<["artist_name" := VStr "Bob"]> (<["artist_gid" := VStr "g1"]>
            (<["id" := VInt 5]> ∅))))).
Proof. vm_compute. reflexivity. Qed.

(** What [process_gender_or_area] makes of a parsed line of [gender.json]
    or [area.json] is an [entry]. *)
Lemma process_gender_or_area_entry (row : dict) id name :
  row !! "id" = Some (VInt id) → row !! "name" = Some (VStr name) →
  process_gender_or_area row = Ok (entry id name).
Proof.
  intros Hid Hname. unfold process_gender_or_area.
  by rewrite (getitem_Some _ _ _ Hid), bind_Ok, (getitem_Some _ _ _ Hname).
Qed.

(** ** Sample tables are reference tables *)

Lemma entry_is_ref_entry id name : is_ref_entry (entry id name).
Proof.
  exists id, name. unfold entry. split.
  - by rewrite lookup_insert_ne, lookup_insert_eq.
  - by rewrite lookup_insert_eq.
Qed.

Lemma entry_id id name : entry id name !! "id" = Some (VInt id).
Proof. unfold entry. by rewrite lookup_insert_ne, lookup_insert_eq. Qed.

Lemma entry_name id name : entry id name !! "name" = Some (VStr name).
Proof. unfold entry. by rewrite lookup_insert_eq. Qed.

Lemma ref_table_nil : ref_table [].
Proof. split; constructor. Qed.

Lemma ref_table_singleton id name : ref_table [entry id name].
Proof.
  split.
  - repeat constructor. apply entry_is_ref_entry.
  - apply NoDup_singleton.
Qed.

Lemma ref_table_pair id1 name1 id2 name2 :
  id1 ≠ id2 → ref_table [entry id1 name1; entry id2 name2].
Proof.
  intros Hne. split.
  - repeat constructor; apply entry_is_ref_entry.
  - cbn [fmap list_fmap]. rewrite !entry_id. apply NoDup_cons. split.
    + rewrite list_elem_of_singleton. congruence.
    + apply NoDup_singleton.
Qed.

Lemma artist_gender id gid name area gender :
  artist id gid name area gender !! "gender" = Some gender.
Proof. unfold artist. by rewrite lookup_insert_eq. Qed.

Lemma artist_area id gid name area gender :
  artist id gid name area gender !! "area" = Some area.
Proof. unfold artist. by rewrite lookup_insert_ne, lookup_insert_eq. Qed.

Lemma matches_head g table v i :
  g !! "id" = Some i → py_eq i v = true → matches (g :: table) v g.
Proof. intros Hid Heq. split; [left|eauto]. Qed.

(** ** Resolution against a reference table *)

(** C3, as amended.  For reference tables (entries [{id: int, name: str}],
    no id twice) and a record whose [area] holds [va] and whose [gender]
    holds [vg]: [resolve] returns; [area] ends as the name of the entry
    whose id equals [va] when there is one and as [va] otherwise; [gender]
    does the same when [vg] is truthy and is left as [vg] when [vg] is falsy;
    and what each field ends as is fixed by the field's value and its table
    alone, whatever the rest of the record and the other table are. *)
Theorem resolve_by_table rr G A vg va :
  ref_table G → ref_table A →
  rr !! "gender" = Some vg → rr !! "area" = Some va →
  ∃ rr', resolve rr G A = Ok rr' ∧
    (∀ g, matches A va g → rr' !! "area" = g !! "name") ∧
    ((∀ g, ¬ matches A va g) → rr' !! "area" = Some va) ∧
    (truthy vg = true → ∀ g, matches G vg g → rr' !! "gender" = g !! "name") ∧
    (truthy vg = false ∨ (∀ g, ¬ matches G vg g) → rr' !! "gender" = Some vg) ∧
    (∀ rr2 A2 rr2', rr2 !! "gender" = Some vg →
       resolve rr2 G A2 = Ok rr2' → rr2' !! "gender" = rr' !! "gender") ∧
    (∀ rr2 G2 rr2', rr2 !! "area" = Some va →
       resolve rr2 G2 A = Ok rr2' → rr2' !! "area" = rr' !! "area").
Proof.
  intros HG HA Hg Ha.
  destruct (resolve_ref_tables rr G A vg va HA (or_intror HG) Hg Ha)
    as (wg & wa & Hres & Hfalsy & Htruthy & Hm & Hno).
  eexists. split; [exact Hres|].
  rewrite lookup_insert_eq, lookup_insert_ne, lookup_insert_eq by done.
  split_and!.
  - intros g Hg'. by destruct (Hm g Hg') as [-> _].
  - intros Hnone. by rewrite (Hno Hnone).
  - intros Ht g Hg'. by destruct (proj1 (Htruthy Ht) g Hg') as [-> _].
  - intros [Ht|Hnone].
    + by rewrite (Hfalsy Ht).
    + destruct (truthy vg) eqn:Ht; [|by rewrite Hfalsy].
      by rewrite (proj2 (Htruthy eq_refl) Hnone).
  - intros rr2 A2 rr2' Hg2 Hres2.
    rewrite (resolve_gender_only rr2 rr G A2 A rr2' _ ltac:(congruence) Hres2 Hres).
    by rewrite lookup_insert_ne, lookup_insert_eq.
  - intros rr2 G2 rr2' Ha2 Hres2.
    rewrite (resolve_area_only rr2 rr G2 G A rr2' _ ltac:(congruence) Hres2 Hres).
    by rewrite lookup_insert_eq.
Qed.

Lemma resolve_by_table_witness :
  ∃ rr', resolve (artist 5 "g1" "Bob" (VInt 7) (VInt 2))
                 [entry 1 "Male"; entry 2 "Female"] [entry 7 "Paris"] = Ok rr' ∧
         rr' !! "area" = Some (VStr "Paris").
Proof.
  destruct (resolve_by_table (artist 5 "g1" "Bob" (VInt 7) (VInt 2))
              [entry 1 "Male"; entry 2 "Female"] [entry 7 "Paris"]
              (VInt 2) (VInt 7))
    as (rr' & Hres & Harea & _).
  - by apply ref_table_pair.
  - apply ref_table_singleton.
  - apply artist_gender.
  - apply artist_area.
  - exists rr'. split; [exact Hres|].
    rewrite (Harea (entry 7 "Paris")); [apply entry_name|].
    by eapply matches_head; [apply entry_id|].
Defined.

(** C3 as it is worded fails on the gender field: the value [0] is the id of
    an entry of the table, and the field is not resolved. *)
Lemma resolve_gender_zero_unresolved :
  let G := [entry 0 "Not applicable"] in
  let rr := artist 5 "g1" "Bob" VNone (VInt 0) in
  ref_table G ∧ ref_table [] ∧
  rr !! "gender" = Some (VInt 0) ∧
  matches G (VInt 0) (entry 0 "Not applicable") ∧
  resolve rr G [] = Ok rr ∧
  rr !! "gender" ≠ entry 0 "Not applicable" !! "name".
Proof.
  cbv zeta. split_and!.
  - apply ref_table_singleton.
  - apply ref_table_nil.
  - apply artist_gender.
  - by eapply matches_head; [apply entry_id|].
  - unfold resolve. by rewrite (getitem_Some _ _ _ (artist_gender _ _ _ _ _)).
  - by rewrite artist_gender, entry_name.
Qed.

(** ** The guard on the gender scan *)

(** C6.  When the gender field holds a falsy value the gender table is not
    consulted at all: whatever it contains (an entry with that very id, or
    entries that could not even be read), the outcome is the one for the
    empty table and the field stays as it was; a truthy value is looked up.
    The area scan has no such guard: whatever the gender field holds and
    whatever value the area field holds, falsy ones included, an entry of
    the area table whose id equals it gives the field its name, and the
    field stays as it was when there is none. *)
Theorem gender_guard_asymmetry rr G A vg va :
  ref_table A →
  rr !! "gender" = Some vg → rr !! "area" = Some va →
  truthy vg = false ∨ ref_table G →
  (truthy vg = false →
     resolve rr G A = resolve rr [] A ∧
     resolve rr G A = scan "area" A rr) ∧
  ∃ rr', resolve rr G A = Ok rr' ∧
    (truthy vg = false → rr' !! "gender" = Some vg) ∧
    (truthy vg = true →
       ∀ g, matches G vg g → rr' !! "gender" = g !! "name") ∧
    (∀ g, matches A va g → rr' !! "area" = g !! "name") ∧
    ((∀ g, ¬ matches A va g) → rr' !! "area" = Some va).
Proof.
  intros HA Hg Ha HG. split.
  - intros Ht. by rewrite !(resolve_unfold _ _ _ _ Hg), Ht, bind_Ok.
  - destruct (resolve_ref_tables rr G A vg va HA HG Hg Ha)
      as (wg & wa & Hres & Hfalsy & Htruthy & Hm & Hno).
    eexists. split; [exact Hres|].
    rewrite lookup_insert_eq, lookup_insert_ne, lookup_insert_eq by done.
    split_and!.
    + intros Ht. by rewrite (Hfalsy Ht).
    + intros Ht g Hmg. by destruct (proj1 (Htruthy Ht) g Hmg) as [-> _].
    + intros g Hmg. by destruct (Hm g Hmg) as [-> _].
    + intros Hnone. by rewrite (Hno Hnone).
Qed.

Lemma gender_guard_asymmetry_witness :
  (∃ rr', resolve (artist 5 "g1" "Bob" (VInt 0) (VInt 0))
                  [entry 0 "Unknown"] [entry 0 "Unknown"] = Ok rr' ∧
          rr' !! "gender" = Some (VInt 0) ∧
          rr' !! "area" = Some (VStr "Unknown")) ∧
  (∃ rr', resolve (artist 5 "g1" "Bob" (VInt 0) (VInt 1))
                  [entry 1 "Male"] [entry 0 "Unknown"] = Ok rr' ∧
          rr' !! "gender" = Some (VStr "Male") ∧
          rr' !! "area" = Some (VStr "Unknown")).
Proof.
  split.
  - destruct (gender_guard_asymmetry (artist 5 "g1" "Bob" (VInt 0) (VInt 0))
                [entry 0 "Unknown"] [entry 0 "Unknown"] (VInt 0) (VInt 0))
      as (_ & rr' & Hres & Hgender & _ & Harea & _).
    + apply ref_table_singleton.
    + apply artist_gender.
    + apply artist_area.
    + left. reflexivity.
    + exists rr'. split_and!; [exact Hres|by apply Hgender|].
      rewrite (Harea (entry 0 "Unknown")); [apply entry_name|].
      by eapply matches_head; [apply entry_id|].
  - destruct (gender_guard_asymmetry (artist 5 "g1" "Bob" (VInt 0) (VInt 1))
                [entry 1 "Male"] [entry 0 "Unknown"] (VInt 1) (VInt 0))
      as (_ & rr' & Hres & _ & Hgender & Harea & _).
    + apply ref_table_singleton.
    + apply artist_gender.
    + apply artist_area.
    + right. apply ref_table_singleton.
    + exists rr'. split_and!; [exact Hres| |].
      * rewrite (Hgender eq_refl (entry 1 "Male")); [apply entry_name|].
        by eapply matches_head; [apply entry_id|].
      * rewrite (Harea (entry 0 "Unknown")); [apply entry_name|].
        by eapply matches_head; [apply entry_id|].
Defined.

(** ** Running the resolver again *)

(** C8.  On a record whose [gender] and [area] already hold strings, and
    tables whose ids are integers, the resolver returns the record as it
    received it: no id equals a string, and nothing is raised.  So
    [process_artists], on a raw row that projects to such a record, returns
    the projection itself. *)
Theorem resolve_again_is_noop rr G A sg sa :
  Forall has_int_id G → Forall has_int_id A →
  rr !! "gender" = Some (VStr sg) → rr !! "area" = Some (VStr sa) →
  resolve rr G A = Ok rr ∧
  ∀ row vid, reduce_row row = Ok rr → rr !! "id" = Some vid →
             process_artists row G A = Ok (vid, rr).
Proof.
  intros HG HA Hg Ha.
  assert (resolve rr G A = Ok rr) as Hres.
  { rewrite (resolve_unfold _ _ _ _ Hg).
    destruct (truthy (VStr sg)).
    - by rewrite (scan_string_noop "gender" G rr sg HG Hg), bind_Ok,
        (scan_string_noop "area" A rr sa HA Ha).
    - by rewrite bind_Ok, (scan_string_noop "area" A rr sa HA Ha). }
  split; [done|]. intros row vid Hred Hid. unfold process_artists.
  by rewrite Hred, bind_Ok, Hres, bind_Ok, (getitem_Some _ _ _ Hid).
Qed.

Lemma resolve_again_is_noop_witness :
  ∃ rr, resolve (artist 5 "g1" "Bob" (VInt 7) (VInt 1))
                [entry 1 "Male"] [entry 7 "Paris"] = Ok rr ∧
        resolve rr [entry 1 "Male"] [entry 7 "Paris"] = Ok rr.
Proof.
  exists (artist 5 "g1" "Bob" (VStr "Paris") (VStr "Male")). split.
  - vm_compute. reflexivity.
  - apply (resolve_again_is_noop _ [entry 1 "Male"] [entry 7 "Paris"]
             "Male" "Paris").
    + repeat constructor. exists 1%Z. apply entry_id.
    + repeat constructor. exists 7%Z. apply entry_id.
    + apply artist_gender.
    + apply artist_area.
Defined.

(** ** The assignment loop on one pair *)

(** What lines 103-105 leave in [src]: the excluded field is never written,
    every other field of [join] is, and the rest of [src] stays. *)
Lemma assign_items_lookup excl (join src : dict) k :
  assign_items excl join src !! k =
    if decide (k = excl) then src !! k
    else match join !! k with
         | Some v => Some v
         | None => src !! k
         end.
Proof.
  unfold assign_items.
  apply (map_fold_weak_ind (λ (r : dict) (m : dict),
    r !! k = if decide (k = excl) then src !! k
             else match m !! k with Some v => Some v | None => src !! k end)).
  - rewrite lookup_empty. by case_decide.
  - intros i x m r Hfresh IH.
    destruct (decide (i ≠ excl)) as [Hi|Hi].
    + destruct (decide (i = k)) as [->|Hik].
      * rewrite !lookup_insert_eq. by rewrite decide_False.
      * by rewrite !lookup_insert_ne.
    + apply dec_stable in Hi as ->. rewrite IH.
      case_decide; [done|]. by rewrite lookup_insert_ne.
Qed.

(** For a single pair the loop computes the merge the specification
    describes, on the content [src] has when the loop starts. *)
Lemma assign_items_merged_copy excl (join src : dict) :
  assign_items excl join src = merged_copy excl src join.
Proof.
  apply map_eq. intros k. rewrite assign_items_lookup. unfold merged_copy.
  rewrite lookup_union. case_decide as Hk.
  - subst k. rewrite lookup_delete_eq. by destruct (src !! excl).
  - rewrite lookup_delete_ne by done.
    destruct (join !! k), (src !! k); done.
Qed.

Lemma apply_joins_snoc excl (src : dict) joins join :
  apply_joins excl src (joins ++ [join])%list =
    assign_items excl join (apply_joins excl src joins).
Proof. unfold apply_joins. by rewrite foldl_app. Qed.

Lemma apply_joins_excluded excl (src : dict) joins :
  apply_joins excl src joins !! excl = src !! excl.
Proof.
  revert src. unfold apply_joins.
  induction joins as [|j joins IH]; intros src; [done|].
  cbn [foldl]. rewrite IH, assign_items_lookup. by rewrite decide_True.
Qed.

(** ** The loops on the store *)

Lemma assign_into_src excl src join (h : heap) :
  assign_into excl src join h !!! src =
    assign_items excl (h !!! join) (h !!! src).
Proof. unfold assign_into. by rewrite lookup_total_insert_eq. Qed.

Lemma assign_into_other excl src join (h : heap) l :
  l ≠ src → assign_into excl src join h !!! l = h !!! l.
Proof. intros Hl. unfold assign_into. by rewrite lookup_total_insert_ne. Qed.

(** A field that the right-hand object does not carry, and the excluded
    field, keep their value in every object of the store. *)
Lemma assign_into_keeps excl src join (h : heap) f l :
  f = excl ∨ (h !!! join) !! f = None →
  (assign_into excl src join h !!! l) !! f = (h !!! l) !! f.
Proof.
  intros Hf. destruct (decide (l = src)) as [->|Hl].
  - rewrite assign_into_src, assign_items_lookup.
    case_decide; [done|]. destruct Hf as [? | ->]; done.
  - by rewrite assign_into_other.
Qed.

Lemma for_joins_cons excl src join joins (h : heap) :
  for_joins excl src (join :: joins) h =
    let h1 := assign_into excl src join h in
    (Emit src (h1 !!! src) :: (for_joins excl src joins h1).1,
     (for_joins excl src joins h1).2).
Proof. reflexivity. Qed.

Lemma for_joins_length excl src joins (h : heap) :
  length (for_joins excl src joins h).1 = length joins.
Proof.
  revert h. induction joins as [|j joins IH]; intros h; [done|].
  rewrite for_joins_cons. cbn. by rewrite IH.
Qed.

(** Every yield of the inner loop hands out the one object [src]. *)
Lemma for_joins_obj excl src joins (h : heap) y :
  y ∈ (for_joins excl src joins h).1 → obj y = src.
Proof.
  revert h. induction joins as [|j joins IH]; intros h Hy.
  - by apply elem_of_nil in Hy.
  - rewrite for_joins_cons in Hy. cbn in Hy.
    apply elem_of_cons in Hy as [->|Hy]; [done|]. by eapply IH.
Qed.

(** The inner loop writes to [src] only. *)
Lemma for_joins_other excl src joins (h : heap) l :
  l ≠ src → (for_joins excl src joins h).2 !!! l = h !!! l.
Proof.
  intros Hl. revert h. induction joins as [|j joins IH]; intros h; [done|].
  rewrite for_joins_cons. cbn. rewrite IH. by apply assign_into_other.
Qed.

(** With [src] not among the right-hand objects, the [i]-th yield shows
    [src] after the first [i + 1] assignments, and the loop leaves [src]
    with all of them applied. *)
Lemma for_joins_seen excl src joins (h : heap) :
  src ∉ joins →
  (∀ i y, (for_joins excl src joins h).1 !! i = Some y →
     seen y = apply_joins excl (h !!! src) ((h !!!.) <$> take (S i) joins)) ∧
  (for_joins excl src joins h).2 !!! src =
     apply_joins excl (h !!! src) ((h !!!.) <$> joins).
Proof.
  revert h. induction joins as [|j joins IH]; intros h Hsrc.
  - split; [|done]. intros i y Hy. cbn in Hy. by rewrite lookup_nil in Hy.
  - apply not_elem_of_cons in Hsrc as [Hj Hsrc].
    rewrite for_joins_cons. cbn zeta. cbn [fst snd].
    destruct (IH (assign_into excl src j h) Hsrc) as [IHseen IHfinal].
    assert (∀ js : list loc, src ∉ js →
              (assign_into excl src j h !!!.) <$> js = (h !!!.) <$> js) as Hsame.
    { intros js Hjs. apply list_fmap_ext. intros _ l Hl%list_elem_of_lookup_2.
      apply assign_into_other. by intros ->. }
    split.
    + intros [|i] y Hy.
      * injection Hy as <-. cbn. by rewrite assign_into_src.
      * cbn in Hy. rewrite (IHseen i y Hy), assign_into_src.
        rewrite Hsame; [done|]. intros (? & Hin & _)%elem_of_take.
        apply Hsrc. by eapply list_elem_of_lookup_2.
    + rewrite IHfinal, assign_into_src. by rewrite Hsame.
Qed.

(** The yield for the [b]-th right-hand object carries every field of that
    object but the excluded one. *)
Lemma for_joins_right_fields excl src joins (h : heap) b join :
  src ∉ joins → joins !! b = Some join →
  ∃ y, (for_joins excl src joins h).1 !! b = Some y ∧ obj y = src ∧
       ∀ f v, f ≠ excl → (h !!! join) !! f = Some v → seen y !! f = Some v.
Proof.
  intros Hsrc Hb.
  destruct (lookup_lt_is_Some_2 (for_joins excl src joins h).1 b) as [y Hy].
  { rewrite for_joins_length. by eapply lookup_lt_Some. }
  exists y. split; [done|]. split.
  { eapply for_joins_obj, list_elem_of_lookup_2, Hy. }
  intros f v Hf Hv.
  rewrite (proj1 (for_joins_seen excl src joins h Hsrc) b y Hy).
  rewrite (take_S_r _ _ _ Hb), fmap_app.
  change ((h !!!.) <$> [join]) with [h !!! join].
  rewrite apply_joins_snoc, assign_items_lookup, decide_False by done.
  by rewrite Hv.
Qed.

(** Fields no right-hand object carries, and the excluded field, go
    through the inner loop untouched, in the store and in every yield. *)
Lemma for_joins_keeps excl src joins (h : heap) f :
  f = excl ∨ Forall (λ j, (h !!! j) !! f = None) joins →
  (∀ l, ((for_joins excl src joins h).2 !!! l) !! f = (h !!! l) !! f) ∧
  (∀ y, y ∈ (for_joins excl src joins h).1 → seen y !! f = (h !!! obj y) !! f).
Proof.
  revert h. induction joins as [|j joins IH]; intros h Hf.
  - split; [done|]. intros y Hy. by apply elem_of_nil in Hy.
  - rewrite for_joins_cons. cbn zeta. cbn [fst snd].
    assert (f = excl ∨ (h !!! j) !! f = None) as Hj.
    { destruct Hf as [->|Hf]; [by left|right]. by apply Forall_cons in Hf as [? _]. }
    pose proof (assign_into_keeps excl src j h f) as Hstep.
    destruct (IH (assign_into excl src j h)) as [IHl IHy].
    { destruct Hf as [->|Hf]; [by left|right].
      apply Forall_cons in Hf as [_ Hf]. eapply Forall_impl; [exact Hf|].
      intros l Hl. cbn. by rewrite Hstep. }
    split.
    + intros l. by rewrite IHl, Hstep.
    + intros y [->|Hy]%elem_of_cons; cbn.
      * by apply Hstep.
      * by rewrite IHy, Hstep.
Qed.

Lemma for_sources_cons excl src sources joins (h : heap) :
  for_sources excl (src :: sources) joins h =
    let r1 := for_joins excl src joins h in
    let r2 := for_sources excl sources joins r1.2 in
    ((r1.1 ++ r2.1)%list, r2.2).
Proof. reflexivity. Qed.

Lemma for_sources_length excl sources joins (h : heap) :
  length (for_sources excl sources joins h).1 = length sources * length joins.
Proof.
  revert h. induction sources as [|src sources IH]; intros h; [done|].
  rewrite for_sources_cons. cbn. by rewrite length_app, for_joins_length, IH.
Qed.

(** The outer loop writes to the left-hand objects only. *)
Lemma for_sources_other excl sources joins (h : heap) l :
  l ∉ sources → (for_sources excl sources joins h).2 !!! l = h !!! l.
Proof.
  revert h. induction sources as [|src sources IH]; intros h Hl; [done|].
  apply not_elem_of_cons in Hl as [Hne Hl].
  rewrite for_sources_cons. cbn. by rewrite IH, for_joins_other.
Qed.

Lemma for_sources_keeps excl sources joins (h : heap) f :
  f = excl ∨ Forall (λ j, (h !!! j) !! f = None) joins →
  (∀ l, ((for_sources excl sources joins h).2 !!! l) !! f = (h !!! l) !! f) ∧
  (∀ y, y ∈ (for_sources excl sources joins h).1 →
     seen y !! f = (h !!! obj y) !! f).
Proof.
  revert h. induction sources as [|src sources IH]; intros h Hf.
  - split; [done|]. intros y Hy. by apply elem_of_nil in Hy.
  - rewrite for_sources_cons. cbn zeta. cbn [fst snd].
    destruct (for_joins_keeps excl src joins h f Hf) as [Hl Hy].
    destruct (IH (for_joins excl src joins h).2) as [IHl IHy].
    { destruct Hf as [->|Hf]; [by left|right].
      eapply Forall_impl; [exact Hf|]. intros l Hnone. cbn. by rewrite Hl. }
    split.
    + intros l. by rewrite IHl, Hl.
    + intros y [Hin|Hin]%elem_of_app; [by apply Hy|]. by rewrite IHy, Hl.
Qed.

(** The yields come in the order of the two loops, and the one for the pair
    [(src, join)] holds every field of [join] but the excluded one. *)
Lemma for_sources_right_fields excl sources joins (h : heap) a b src join :
  (∀ j, j ∈ joins → j ∉ sources) →
  sources !! a = Some src → joins !! b = Some join →
  ∃ y, (for_sources excl sources joins h).1 !! (a * length joins + b) = Some y ∧
       obj y = src ∧
       ∀ f v, f ≠ excl → (h !!! join) !! f = Some v → seen y !! f = Some v.
Proof.
  intros Hdisj Ha Hb. revert a h Hdisj Ha.
  induction sources as [|src0 sources IH]; intros a h Hdisj Ha; [done|].
  assert (src0 ∉ joins) as Hsrc0.
  { intros Hin. apply (Hdisj src0 Hin). left. }
  rewrite for_sources_cons. cbn zeta. cbn [fst].
  destruct a as [|a].
  - injection Ha as ->. cbn [Nat.mul Nat.add].
    rewrite lookup_app_l
      by (rewrite for_joins_length; by eapply lookup_lt_Some).
    by apply for_joins_right_fields.
  - cbn in Ha. replace (S a * length joins + b)
      with (length (for_joins excl src0 joins h).1 + (a * length joins + b))
      by (rewrite for_joins_length; lia).
    rewrite lookup_app_r, Nat.add_comm, Nat.add_sub by lia.
    destruct (IH a (for_joins excl src0 joins h).2) as (y & Hy & Hobj & Hfields);
      [|done|].
    { intros j Hj Hin. apply (Hdisj j Hj). by right. }
    exists y. split; [done|]. split; [done|].
    intros f v Hf Hv. apply Hfields; [done|].
    rewrite for_joins_other; [done|]. intros ->.
    apply (Hdisj src0); [by eapply list_elem_of_lookup_2|left].
Qed.

(** ** [process] *)

Lemma process_Ok (h : heap) k (gd : gmap string (list loc)) source joined excl
    sources joins :
  gd !! source = Some sources → gd !! joined = Some joins →
  process h (k, gd) source joined excl = Ok (for_sources excl sources joins h).
Proof.
  intros Hs Hj. unfold process.
  by rewrite (getitem_Some _ _ _ Hs), bind_Ok, (getitem_Some _ _ _ Hj).
Qed.

Lemma group_of_absent k (kvs : list (val * loc)) :
  k ∉ kvs.*1 → group_of k kvs = [].
Proof.
  intros Hk. unfold group_of. induction kvs as [|[k' l] kvs IH]; [done|].
  cbn in Hk. apply not_elem_of_cons in Hk as [Hne Hk].
  rewrite filter_cons_False by (cbn; congruence). by apply IH.
Qed.

Lemma co_group_by_key_elem source joined left right k gd :
  (k, gd) ∈ co_group_by_key source joined left right →
  (k ∈ left.*1 ∨ k ∈ right.*1) ∧
  gd = grouped source joined (group_of k left) (group_of k right).
Proof.
  unfold co_group_by_key. intros (k' & [= <- <-] & Hk)%list_elem_of_fmap.
  split; [|done]. by apply elem_of_remove_dups, elem_of_app in Hk.
Qed.

Lemma co_group_by_key_keys source joined left right k :
  k ∈ left.*1 ∨ k ∈ right.*1 →
  ∃ gd, (k, gd) ∈ co_group_by_key source joined left right.
Proof.
  intros Hk. eexists. unfold co_group_by_key. apply list_elem_of_fmap.
  exists k. split; [done|]. by apply elem_of_remove_dups, elem_of_app.
Qed.

Lemma grouped_source source joined sources joins :
  source ≠ joined → grouped source joined sources joins !! source = Some sources.
Proof. intros Hne. unfold grouped. by rewrite lookup_insert_ne, lookup_insert_eq. Qed.

Lemma grouped_joined source joined sources joins :
  grouped source joined sources joins !! joined = Some joins.
Proof. unfold grouped. by rewrite lookup_insert_eq. Qed.

Lemma for_sources_obj excl sources joins (h : heap) y :
  y ∈ (for_sources excl sources joins h).1 → obj y ∈ sources.
Proof.
  revert h. induction sources as [|src sources IH]; intros h Hy.
  - by apply elem_of_nil in Hy.
  - rewrite for_sources_cons in Hy. cbn in Hy.
    apply elem_of_app in Hy as [Hy|Hy].
    + rewrite (for_joins_obj _ _ _ _ _ Hy). left.
    + right. by eapply IH.
Qed.

Lemma for_sources_single excl src joins (h : heap) :
  for_sources excl [src] joins h = for_joins excl src joins h.
Proof.
  rewrite for_sources_cons. cbn. rewrite app_nil_r.
  by destruct (for_joins excl src joins h).
Qed.

(** A field written by one right-hand content and carried by none of the
    later ones is still there after all of them have been applied. *)
Lemma apply_joins_persists excl (src : dict) joins i join f v :
  joins !! i = Some join → f ≠ excl → join !! f = Some v →
  (∀ i' join', i < i' → joins !! i' = Some join' → join' !! f = None) →
  apply_joins excl src joins !! f = Some v.
Proof.
  revert i. induction joins as [|last joins IH] using rev_ind; intros i Hi Hf Hv Hlater.
  - by rewrite lookup_nil in Hi.
  - rewrite apply_joins_snoc, assign_items_lookup, decide_False by done.
    destruct (decide (i = length joins)) as [->|Hne].
    + rewrite list_lookup_middle in Hi by done. injection Hi as ->. by rewrite Hv.
    + assert (i < length joins) as Hlt.
      { apply lookup_lt_Some in Hi. rewrite length_app in Hi. cbn in Hi. lia. }
      rewrite (Hlater (length joins) last Hlt) by (by rewrite list_lookup_middle).
      rewrite lookup_app_l in Hi by done.
      apply (IH i Hi Hf Hv). intros i' join' Hlt' Hi'.
      apply (Hlater i' join' Hlt'). rewrite lookup_app_l; [done|].
      by eapply lookup_lt_Some.
Qed.

(** Right-hand contents that do not carry a field leave it as it was. *)
Lemma apply_joins_keeps excl (src : dict) joins f :
  Forall (λ join : dict, join !! f = None) joins →
  apply_joins excl src joins !! f = src !! f.
Proof.
  induction joins as [|last joins IH] using rev_ind; intros Hnone; [done|].
  apply Forall_app in Hnone as [Hjoins [Hlast _]%Forall_cons].
  rewrite apply_joins_snoc, assign_items_lookup, Hlast, IH by done.
  by case_decide.
Qed.

(** When the right-hand records of a group all carry the same field names,
    as the ones built by [process_artist_credit] or by [process_recording]
    do, what each yield shows is the merge of the specification for its
    pair. *)
Lemma for_joins_same_fields excl src joins (h : heap) i y join :
  src ∉ joins →
  (∀ j j', j ∈ joins → j' ∈ joins → dom (h !!! j) = dom (h !!! j')) →
  (for_joins excl src joins h).1 !! i = Some y → joins !! i = Some join →
  seen y = merged_copy excl (h !!! src) (h !!! join).
Proof.
  intros Hsrc Hdom Hy Hi.
  rewrite (proj1 (for_joins_seen excl src joins h Hsrc) i y Hy).
  rewrite (take_S_r _ _ _ Hi), fmap_app.
  change ((h !!!.) <$> [join]) with [h !!! join].
  rewrite apply_joins_snoc, <- assign_items_merged_copy.
  apply map_eq. intros f. rewrite !assign_items_lookup.
  case_decide as Hexcl; [subst f; by rewrite apply_joins_excluded|].
  destruct ((h !!! join) !! f) eqn:Hf; [done|].
  apply apply_joins_keeps, Forall_forall.
  intros d (j & -> & (i' & Hj & _)%elem_of_take)%list_elem_of_fmap.
  apply not_elem_of_dom.
  rewrite (Hdom j join) by (by eapply list_elem_of_lookup_2).
  by apply not_elem_of_dom.
Qed.

(** ** How many records the merge emits *)

(** C2.  For the element [CoGroupByKey] builds for a key [k], [process]
    returns normally and yields as many records as the left group of [k] has
    members times the right group of [k]; none at all when [k] occurs on one
    side only. *)
Theorem process_count source joined excl left right (h : heap) k gd :
  source ≠ joined →
  (k, gd) ∈ co_group_by_key source joined left right →
  ∃ out h', process h (k, gd) source joined excl = Ok (out, h') ∧
    length out = length (group_of k left) * length (group_of k right) ∧
    (k ∉ left.*1 ∨ k ∉ right.*1 → out = []).
Proof.
  intros Hne [_ ->]%co_group_by_key_elem.
  exists (for_sources excl (group_of k left) (group_of k right) h).1,
         (for_sources excl (group_of k left) (group_of k right) h).2.
  split.
  - rewrite (process_Ok h k _ source joined excl
               (group_of k left) (group_of k right)).
    + by destruct (for_sources _ _ _ _).
    + by apply grouped_source.
    + apply grouped_joined.
  - pose proof (for_sources_length excl (group_of k left) (group_of k right) h)
      as Hlen.
    split; [done|]. intros Hone. apply nil_length_inv. rewrite Hlen.
    destruct Hone as [Hk|Hk]; rewrite (group_of_absent _ _ Hk); cbn; lia.
Qed.

Lemma process_count_witness :
  ∃ out h',
    process (store [artist 2 "g2" "Ann" VNone VNone; credit 10 1])
      (VInt 2, grouped "artists" "artist_credit_name" [0] [])
      "artists" "artist_credit_name" "artist" = Ok (out, h') ∧
    out = [].
Proof.
  destruct (process_count "artists" "artist_credit_name" "artist"
              [(VInt 2, 0)] [(VInt 1, 1)]
              (store [artist 2 "g2" "Ann" VNone VNone; credit 10 1])
              (VInt 2) (grouped "artists" "artist_credit_name" [0] []))
    as (out & h' & Hrun & _ & Hnone).
  - done.
  - apply list_elem_of_fmap. exists (VInt 2). split; [reflexivity|].
    apply elem_of_remove_dups. cbn. left.
  - exists out, h'. split; [exact Hrun|]. apply Hnone. right. cbn.
    rewrite list_elem_of_singleton. discriminate.
Defined.

(** ** What a merged record holds *)

(** C4.  With left and right groups made of distinct objects, [process]
    returns normally; every record it yields shows, under the excluded
    field, what its own left-hand record had there before the merge (nothing
    if it had no such field), whatever the right-hand records hold; and the
    record yielded for the pair [(src, join)] shows every other field of
    [join] with the value [join] gives it, whether or not [src] had a field
    of that name. *)
Theorem merge_output_fields (h : heap) k gd source joined excl sources joins :
  gd !! source = Some sources → gd !! joined = Some joins →
  (∀ j, j ∈ joins → j ∉ sources) →
  ∃ out h', process h (k, gd) source joined excl = Ok (out, h') ∧
    (∀ y, y ∈ out →
       obj y ∈ sources ∧ seen y !! excl = (h !!! obj y) !! excl) ∧
    (∀ a b src join, sources !! a = Some src → joins !! b = Some join →
       ∃ y, out !! (a * length joins + b) = Some y ∧ obj y = src ∧
         ∀ f v, f ≠ excl → (h !!! join) !! f = Some v →
                seen y !! f = Some v).
Proof.
  intros Hs Hj Hdisj.
  exists (for_sources excl sources joins h).1, (for_sources excl sources joins h).2.
  split_and!.
  - rewrite (process_Ok h k gd source joined excl sources joins Hs Hj).
    by destruct (for_sources _ _ _ _).
  - intros y Hy. split; [by eapply for_sources_obj|].
    by apply (for_sources_keeps excl sources joins h excl (or_introl eq_refl)).
  - intros a b src join Ha Hb. by apply for_sources_right_fields.
Qed.

Lemma merge_output_fields_witness :
  ∃ out h',
    process
      (store [<["artist_credit" := VInt 10]> (artist 1 "g1" "Bob" VNone VNone);
              <["recording_name" := VStr "Song"]>
                (<["artist_credit" := VInt 99]> ∅)])
      (VInt 10, grouped "joined" "recordings" [0] [1])
      "joined" "recordings" "artist_credit" = Ok (out, h') ∧
    ∃ y, out !! 0 = Some y ∧
         seen y !! "recording_name" = Some (VStr "Song") ∧
         seen y !! "artist_credit" = Some (VInt 10).
Proof.
  destruct (merge_output_fields
              (store [<["artist_credit" := VInt 10]> (artist 1 "g1" "Bob" VNone VNone);
                      <["recording_name" := VStr "Song"]>
                        (<["artist_credit" := VInt 99]> ∅)])
              (VInt 10) (grouped "joined" "recordings" [0] [1])
              "joined" "recordings" "artist_credit" [0] [1])
    as (out & h' & Hrun & Hexcl & Hfields).
  - reflexivity.
  - reflexivity.
  - intros j ->%list_elem_of_singleton Hin%list_elem_of_singleton. discriminate.
  - exists out, h'. split; [exact Hrun|].
    destruct (Hfields 0 0 0 1 eq_refl eq_refl) as (y & Hy & Hobj & Hf).
    exists y. split_and!; [exact Hy| |].
    + apply Hf; [discriminate|reflexivity].
    + destruct (Hexcl y) as [_ ->]; [by eapply list_elem_of_lookup_2|].
      rewrite Hobj. reflexivity.
Defined.

(** ** The merge works in place *)

(** C10.  For one left-hand object [src] and right-hand objects
    [joins = join_1 .. join_n] other than [src]: [process] yields [n] times,
    each time the object [src] itself; the [i]-th yield shows [src] with the
    assignments for [join_1 .. join_i] applied in order to what [src] held at
    the start, so a field written for an earlier right-hand record and
    carried by none of the following ones up to [join_i] is still shown; and
    once the generator is exhausted every yielded reference leads to the one
    content with all [n] applied. *)
Theorem merge_accumulates_in_place (h : heap) k gd source joined excl src joins :
  gd !! source = Some [src] → gd !! joined = Some joins →
  src ∉ joins →
  ∃ out h', process h (k, gd) source joined excl = Ok (out, h') ∧
    length out = length joins ∧
    (∀ i y, out !! i = Some y →
       obj y = src ∧
       seen y = apply_joins excl (h !!! src) ((h !!!.) <$> take (S i) joins)) ∧
    (∀ (i i' : nat) y join f v,
       out !! i = Some y → (i' ≤ i)%nat → joins !! i' = Some join →
       f ≠ excl → (h !!! join) !! f = Some v →
       (∀ (i'' : nat) join'', (i' < i'' ≤ i)%nat → joins !! i'' = Some join'' →
          (h !!! join'') !! f = None) →
       seen y !! f = Some v) ∧
    (∀ y, y ∈ out →
       h' !!! obj y = apply_joins excl (h !!! src) ((h !!!.) <$> joins)).
Proof.
  intros Hs Hj Hsrc.
  exists (for_joins excl src joins h).1, (for_joins excl src joins h).2.
  destruct (for_joins_seen excl src joins h Hsrc) as [Hseen Hfinal].
  split_and!.
  - rewrite (process_Ok h k gd source joined excl [src] joins Hs Hj).
    rewrite for_sources_single. by destruct (for_joins _ _ _ _).
  - apply for_joins_length.
  - intros i y Hy. split; [|by apply Hseen].
    eapply for_joins_obj, list_elem_of_lookup_2, Hy.
  - intros i i' y join f v Hy Hle Hi' Hf Hv Hlater.
    rewrite (Hseen i y Hy).
    apply (apply_joins_persists excl _ _ i' (h !!! join) f v); [|done|done|].
    + rewrite list_lookup_fmap, lookup_take_lt by lia. by rewrite Hi'.
    + intros i'' d Hlt Hd. rewrite list_lookup_fmap in Hd.
      destruct (decide (i'' < S i)) as [Hlt'|Hge].
      * rewrite lookup_take_lt in Hd by done.
        destruct (joins !! i'') as [join''|] eqn:Hj''; [|done].
        injection Hd as <-. apply (Hlater i'' join''); [lia|done].
      * rewrite lookup_take_ge in Hd by lia. done.
  - intros y Hy. by rewrite (for_joins_obj _ _ _ _ _ Hy).
Qed.

Lemma merge_accumulates_in_place_witness :
  ∃ out h',
    process
      (store [artist 1 "g1" "Bob" VNone VNone;
              <["join_phrase" := VStr "feat."]> (credit 10 1);
              credit 11 1])
      (VInt 1, grouped "artists" "artist_credit_name" [0] [1; 2])
      "artists" "artist_credit_name" "artist" = Ok (out, h') ∧
    ∃ y, out !! 1 = Some y ∧ obj y = 0 ∧
         seen y !! "join_phrase" = Some (VStr "feat.").
Proof.
  destruct (merge_accumulates_in_place
              (store [artist 1 "g1" "Bob" VNone VNone;
                      <["join_phrase" := VStr "feat."]> (credit 10 1);
                      credit 11 1])
              (VInt 1) (grouped "artists" "artist_credit_name" [0] [1; 2])
              "artists" "artist_credit_name" "artist" 0 [1; 2])
    as (out & h' & Hrun & Hlen & Hseen & Hpersist & _).
  - reflexivity.
  - reflexivity.
  - intros Hin. apply elem_of_cons in Hin as [?|Hin]; [discriminate|].
    apply list_elem_of_singleton in Hin. discriminate.
  - exists out, h'. split; [exact Hrun|].
    destruct (lookup_lt_is_Some_2 out 1) as [y Hy]; [rewrite Hlen; cbn; lia|].
    exists y. split_and!; [exact Hy|by apply (Hseen 1)|].
    apply (Hpersist 1 0 y 1 "join_phrase" (VStr "feat."));
      [exact Hy|lia|reflexivity|discriminate|reflexivity|].
    intros i'' join'' Hi'' Hj''. assert (i'' = 1) as -> by lia.
    injection Hj'' as <-. reflexivity.
Defined.

(** ** The merge against its specification *)

(** C1.  The merge at a left-hand record with two right-hand records that
    do not carry the same fields.  The first yield is the copy-and-overwrite
    merge of the pair; the second is not: it still shows [join_phrase], a
    field of the first right-hand record only.  Both yields are the object
    [0], the left-hand record itself, which is left holding the second
    content. *)
Theorem process_leaks_between_pairs :
  let src := artist 1 "g1" "Bob" VNone VNone in
  let join1 := <["join_phrase" := VStr "feat."]> (credit 10 1) in
  let join2 := credit 11 1 in
  let leaked := <["join_phrase" := VStr "feat."]> (merged_copy "artist" src join2) in
  process (store [src; join1; join2])
    (VInt 1, grouped "artists" "artist_credit_name" [0] [1; 2])
    "artists" "artist_credit_name" "artist"
  = Ok ([Emit 0 (merged_copy "artist" src join1); Emit 0 leaked],
        store [leaked; join1; join2]) ∧
  cartesian_merge "artist" [src] [join1; join2]
  = [merged_copy "artist" src join1; merged_copy "artist" src join2] ∧
  leaked ≠ merged_copy "artist" src join2.
Proof.
  cbv zeta. split_and!.
  - vm_compute. reflexivity.
  - reflexivity.
  - intros Heq.
    apply (f_equal (λ d : dict, d !! "join_phrase")) in Heq.
    vm_compute in Heq. discriminate.
Qed.

Lemma store_lookup_total (objs : list dict) (l : loc) d :
  objs !! l = Some d → store objs !!! l = d.
Proof.
  intros Hl. unfold store. apply lookup_total_correct.
  by rewrite lookup_map_seq_0.
Qed.

Lemma credit_lookup artist_credit artist k :
  credit artist_credit artist !! k =
    if decide (k = "artist") then Some (VInt artist)
    else if decide (k = "artist_credit") then Some (VInt artist_credit)
    else None.
Proof.
  unfold credit. rewrite !lookup_insert, lookup_empty.
  repeat case_decide; congruence.
Qed.

(** Merging a credit row into a record, [artist] excluded, sets
    [artist_credit] and nothing else. *)
Lemma assign_items_credit artist_credit artist (src : dict) :
  assign_items "artist" (credit artist_credit artist) src =
    <["artist_credit" := VInt artist_credit]> src.
Proof.
  apply map_eq. intros k. rewrite assign_items_lookup, credit_lookup, lookup_insert.
  repeat case_decide; congruence.
Qed.

(** ** [process_artists] as a whole *)

Lemma reduce_row_Ok (row : dict) vid vgid vname va vg :
  row !! "id" = Some vid → row !! "gid" = Some vgid →
  row !! "name" = Some vname → row !! "area" = Some va →
  row !! "gender" = Some vg →
  reduce_row row =
    Ok (<["gender" := vg]> (<["area" := va]> (<["artist_name" := vname]>
         (<["artist_gid" := vgid]> (<["id" := vid]> ∅))))).
Proof.
  intros Hid Hgid Hname Ha Hg. unfold reduce_row.
  by rewrite (getitem_Some _ _ _ Hid), bind_Ok, (getitem_Some _ _ _ Hgid), bind_Ok,
    (getitem_Some _ _ _ Hname), bind_Ok, (getitem_Some _ _ _ Ha), bind_Ok,
    (getitem_Some _ _ _ Hg), bind_Ok.
Qed.

(** A row that lacks one of the fields the projection reads makes it raise
    [KeyError] for the first such field in reading order. *)
Lemma reduce_row_missing (row : dict) f :
  f ∈ artist_fields → row !! f = None →
  ∃ f', f' ∈ artist_fields ∧ row !! f' = None ∧
        reduce_row row = Raise (KeyError f').
Proof.
  intros Hf Hnone. unfold reduce_row, artist_fields in *.
  destruct (row !! "id") as [vid|] eqn:Hid.
  2: { exists "id". rewrite (getitem_None _ _ Hid). split_and!; [in_list|done..]. }
  rewrite (getitem_Some _ _ _ Hid), bind_Ok.
  destruct (row !! "gid") as [vgid|] eqn:Hgid.
  2: { exists "gid". rewrite (getitem_None _ _ Hgid). split_and!; [in_list|done..]. }
  rewrite (getitem_Some _ _ _ Hgid), bind_Ok.
  destruct (row !! "name") as [vname|] eqn:Hname.
  2: { exists "name". rewrite (getitem_None _ _ Hname). split_and!; [in_list|done..]. }
  rewrite (getitem_Some _ _ _ Hname), bind_Ok.
  destruct (row !! "area") as [va|] eqn:Ha.
  2: { exists "area". rewrite (getitem_None _ _ Ha). split_and!; [in_list|done..]. }
  rewrite (getitem_Some _ _ _ Ha), bind_Ok.
  destruct (row !! "gender") as [vg|] eqn:Hg.
  2: { exists "gender". rewrite (getitem_None _ _ Hg). split_and!; [in_list|done..]. }
  exfalso. rewrite !elem_of_cons, elem_of_nil in Hf.
  destruct_or!; subst f; congruence.
Qed.

Lemma scan_absent field table rr rr' f :
  rr !! f = None → scan field table rr = Ok rr' → rr' !! f = None.
Proof.
  intros Hnone Hscan. destruct (decide (f = field)) as [->|Hne].
  - destruct table as [|g table]; [by injection Hscan as <-|].
    cbn [scan] in Hscan. destruct (getitem g "id"); [|done].
    by rewrite bind_Ok, (getitem_None _ _ Hnone) in Hscan.
  - by rewrite (scan_other_field _ _ _ _ _ Hne Hscan).
Qed.

Lemma resolve_absent rr G A rr' f :
  rr !! f = None → resolve rr G A = Ok rr' → rr' !! f = None.
Proof.
  intros Hnone Hres. unfold resolve in Hres.
  destruct (getitem rr "gender") as [gv|]; [|done]. rewrite bind_Ok in Hres.
  destruct (truthy gv).
  - destruct (scan "gender" G rr) as [m|] eqn:Hm; [|done]. rewrite bind_Ok in Hres.
    eapply scan_absent; [|exact Hres]. by eapply scan_absent.
  - rewrite bind_Ok in Hres. by eapply scan_absent.
Qed.

Lemma process_artists_inv row G A vid rr :
  process_artists row G A = Ok (vid, rr) →
  ∃ rr0, reduce_row row = Ok rr0 ∧ resolve rr0 G A = Ok rr ∧
         rr !! "id" = Some vid.
Proof.
  unfold process_artists. intros Hrun.
  destruct (reduce_row row) as [rr0|]; [|done]. rewrite bind_Ok in Hrun.
  destruct (resolve rr0 G A) as [rr1|] eqn:Hres; [|done].
  rewrite bind_Ok in Hrun.
  destruct (getitem_inv rr1 "id" _ eq_refl) as [(v & Hv & Hget)|[_ Hget]];
    rewrite Hget in Hrun; [|done].
  rewrite bind_Ok in Hrun. injection Hrun as -> ->. eauto.
Qed.

(** The record [process_artists] returns has no field beyond the five of an
    artist record. *)
Lemma process_artists_absent row G A vid rr f :
  process_artists row G A = Ok (vid, rr) →
  f ∉ ["id"; "artist_gid"; "artist_name"; "area"; "gender"] →
  rr !! f = None.
Proof.
  intros (rr0 & Hred & Hres & _)%process_artists_inv Hf.
  eapply resolve_absent; [|exact Hres].
  unfold reduce_row in Hred.
  destruct (getitem row "id"); [|done]. rewrite bind_Ok in Hred.
  destruct (getitem row "gid"); [|done]. rewrite bind_Ok in Hred.
  destruct (getitem row "name"); [|done]. rewrite bind_Ok in Hred.
  destruct (getitem row "area"); [|done]. rewrite bind_Ok in Hred.
  destruct (getitem row "gender"); [|done]. rewrite bind_Ok in Hred.
  injection Hred as <-.
  rewrite !not_elem_of_cons in Hf. destruct_and!.
  by rewrite !lookup_insert_ne, lookup_empty.
Qed.

(** ** Scenario B *)

(** C7.  One artist record with key [1], as [process_artists] returns it,
    and the two credit rows [{artist_credit: 10, artist: 1}] and
    [{artist_credit: 11, artist: 1}], which [process_artist_credit] keys by
    [1]: [CoGroupByKey] makes one element of them, and [process], with
    [artist] excluded, yields twice for it, showing the artist record with
    [artist_credit] set to 10 and then to 11; neither record shown has an
    [artist] field, and both have every field of the artist record. *)
Theorem scenario_B row gender area rr :
  process_artists row gender area = Ok (VInt 1, rr) →
  process_artist_credit (credit 10 1) = Ok (VInt 1, credit 10 1) ∧
  process_artist_credit (credit 11 1) = Ok (VInt 1, credit 11 1) ∧
  ∃ e out h',
    co_group_by_key "artists" "artist_credit_name"
      [(VInt 1, 0)] [(VInt 1, 1); (VInt 1, 2)] = [e] ∧
    process (store [rr; credit 10 1; credit 11 1]) e
      "artists" "artist_credit_name" "artist" = Ok (out, h') ∧
    out = [Emit 0 (<["artist_credit" := VInt 10]> rr);
           Emit 0 (<["artist_credit" := VInt 11]> rr)] ∧
    Forall (λ y, seen y !! "artist" = None ∧
                 ∀ f, is_Some (rr !! f) → seen y !! f = rr !! f) out.
Proof.
  intros Hrr. split_and!; [reflexivity..|].
  assert (rr !! "artist" = None) as Hartist.
  { eapply process_artists_absent; [exact Hrr|]. not_in_list. }
  assert (rr !! "artist_credit" = None) as Hcredit.
  { eapply process_artists_absent; [exact Hrr|]. not_in_list. }
  set (h := store [rr; credit 10 1; credit 11 1]).
  exists (VInt 1, grouped "artists" "artist_credit_name" [0] [1; 2]),
    (for_joins "artist" 0 [1; 2] h).1, (for_joins "artist" 0 [1; 2] h).2.
  split_and!.
  - reflexivity.
  - rewrite (process_Ok h _ _ _ _ _ [0] [1; 2]) by reflexivity.
    rewrite for_sources_single. by destruct (for_joins _ _ _ _).
  - subst h. rewrite !for_joins_cons. cbn zeta. cbn [fst for_joins].
    rewrite !assign_into_src, assign_into_other by done.
    rewrite (store_lookup_total [rr; credit 10 1; credit 11 1] 0 rr eq_refl).
    rewrite (store_lookup_total [rr; credit 10 1; credit 11 1] 1 _ eq_refl).
    rewrite (store_lookup_total [rr; credit 10 1; credit 11 1] 2 _ eq_refl).
    by rewrite !assign_items_credit, insert_insert_eq.
  - subst h. rewrite !for_joins_cons. cbn zeta. cbn [fst for_joins].
    rewrite !assign_into_src, assign_into_other by done.
    rewrite (store_lookup_total [rr; credit 10 1; credit 11 1] 0 rr eq_refl).
    rewrite (store_lookup_total [rr; credit 10 1; credit 11 1] 1 _ eq_refl).
    rewrite (store_lookup_total [rr; credit 10 1; credit 11 1] 2 _ eq_refl).
    rewrite !assign_items_credit, insert_insert_eq.
    repeat constructor; cbn [seen].
    + by rewrite lookup_insert_ne.
    + intros f [v Hv]. rewrite lookup_insert_ne; [done|]. congruence.
    + by rewrite lookup_insert_ne.
    + intros f [v Hv]. rewrite lookup_insert_ne; [done|]. congruence.
Qed.

Lemma scenario_B_witness :
  ∃ e out h',
    co_group_by_key "artists" "artist_credit_name"
      [(VInt 1, 0)] [(VInt 1, 1); (VInt 1, 2)] = [e] ∧
    process (store [artist 1 "g1" "Bob" VNone (VStr "Male");
                    credit 10 1; credit 11 1]) e
      "artists" "artist_credit_name" "artist" = Ok (out, h') ∧
    out = [Emit 0 (<["artist_credit" := VInt 10]>
                     (artist 1 "g1" "Bob" VNone (VStr "Male")));
           Emit 0 (<["artist_credit" := VInt 11]>
                     (artist 1 "g1" "Bob" VNone (VStr "Male")))].
Proof.
  destruct (scenario_B (raw_artist 1 "g1" "Bob" VNone (VInt 1))
              [entry 1 "Male"] [] (artist 1 "g1" "Bob" VNone (VStr "Male")))
    as (_ & _ & e & out & h' & He & Hrun & Hout & _).
  - vm_compute. reflexivity.
  - exists e, out, h'. split_and!; [exact He|exact Hrun|exact Hout].
Defined.

(** ** Resolved fields in the output rows *)

Lemma process_artist_credit_lookup raw key (d : dict) f :
  process_artist_credit raw = Ok (key, d) →
  f ∉ ["artist_credit"; "artist"] → d !! f = None.
Proof.
  unfold process_artist_credit. intros Hrun Hf.
  destruct (getitem raw "artist_credit"); [|done]. rewrite bind_Ok in Hrun.
  destruct (getitem raw "artist"); [|done]. rewrite bind_Ok in Hrun.
  cbn zeta in Hrun. destruct (getitem _ "artist"); [|done].
  rewrite bind_Ok in Hrun. injection Hrun as _ <-.
  rewrite !not_elem_of_cons in Hf. destruct_and!.
  by rewrite !lookup_insert_ne, lookup_empty.
Qed.

Lemma process_recording_lookup raw key (d : dict) f :
  process_recording raw = Ok (key, d) →
  f ∉ ["recording_name"; "length"; "recording_gid"; "video"; "artist_credit"] →
  d !! f = None.
Proof.
  unfold process_recording. intros Hrun Hf.
  destruct (getitem raw "name"); [|done]. rewrite bind_Ok in Hrun.
  destruct (getitem raw "length"); [|done]. rewrite bind_Ok in Hrun.
  destruct (getitem raw "gid"); [|done]. rewrite bind_Ok in Hrun.
  destruct (getitem raw "video"); [|done]. rewrite bind_Ok in Hrun.
  destruct (getitem raw "artist_credit"); [|done]. rewrite bind_Ok in Hrun.
  cbn zeta in Hrun. destruct (getitem _ "artist_credit"); [|done].
  rewrite bind_Ok in Hrun. injection Hrun as _ <-.
  rewrite !not_elem_of_cons in Hf. destruct_and!.
  by rewrite !lookup_insert_ne, lookup_empty.
Qed.

(** C5, as amended.  For a raw artist row with its five fields and two
    reference tables, [process_artists] returns, keyed by the row's [id]:
    [area] holds the name string of the entry whose id equals the row's
    [area] when there is one, and the row's own value otherwise; [gender]
    does the same when the row's [gender] is truthy, and holds the row's own
    value when it is falsy.  A merge whose right-hand records come from
    [process_artist_credit] or [process_recording] then yields records that
    show [area] and [gender] as their left-hand record had them, so the
    values reach the final rows. *)
Theorem resolved_fields_reach_output row G A vid vgid vname va vg :
  ref_table G → ref_table A →
  row !! "id" = Some vid → row !! "gid" = Some vgid →
  row !! "name" = Some vname →
  row !! "area" = Some va → row !! "gender" = Some vg →
  ∃ rr, process_artists row G A = Ok (vid, rr) ∧
    (∀ g, matches A va g →
       ∃ s, g !! "name" = Some (VStr s) ∧ rr !! "area" = Some (VStr s)) ∧
    ((∀ g, ¬ matches A va g) → rr !! "area" = Some va) ∧
    (truthy vg = true → ∀ g, matches G vg g →
       ∃ s, g !! "name" = Some (VStr s) ∧ rr !! "gender" = Some (VStr s)) ∧
    (truthy vg = false ∨ (∀ g, ¬ matches G vg g) → rr !! "gender" = Some vg) ∧
    (∀ (h : heap) excl sources joins y,
       (∀ j, j ∈ joins → ∃ raw key,
          process_artist_credit raw = Ok (key, h !!! j) ∨
          process_recording raw = Ok (key, h !!! j)) →
       y ∈ (for_sources excl sources joins h).1 →
       seen y !! "area" = (h !!! obj y) !! "area" ∧
       seen y !! "gender" = (h !!! obj y) !! "gender").
Proof.
  intros HG HA Hid Hgid Hname Ha Hg.
  set (rr0 := <["gender" := vg]> (<["area" := va]> (<["artist_name" := vname]>
         (<["artist_gid" := vgid]> (<["id" := vid]> (∅ : dict)))))).
  assert (rr0 !! "gender" = Some vg) as Hg0 by done.
  assert (rr0 !! "area" = Some va) as Ha0 by done.
  destruct (resolve_ref_tables rr0 G A vg va HA (or_intror HG) Hg0 Ha0)
    as (wg & wa & Hres & Hfalsy & Htruthy & Hm & Hno).
  eexists. split_and!.
  - unfold process_artists.
    rewrite (reduce_row_Ok row vid vgid vname va vg Hid Hgid Hname Ha Hg).
    rewrite bind_Ok. fold rr0. rewrite Hres, bind_Ok.
    by rewrite (getitem_Some _ "id" vid).
  - intros g Hmg. destruct (Hm g Hmg) as [Hn [s ->]]. exists s.
    by rewrite lookup_insert_eq.
  - intros Hnone. by rewrite lookup_insert_eq, (Hno Hnone).
  - intros Ht g Hmg. destruct (proj1 (Htruthy Ht) g Hmg) as [Hn [s ->]].
    exists s. by rewrite lookup_insert_ne, lookup_insert_eq.
  - intros Hcase. rewrite lookup_insert_ne, lookup_insert_eq by done. f_equal.
    destruct (truthy vg) eqn:Ht; [|by apply Hfalsy].
    destruct Hcase as [?|Hnone]; [done|]. by apply (proj2 (Htruthy eq_refl)).
  - intros h excl sources joins y Hjoins Hy.
    assert (∀ f, f ∉ ["artist_credit"; "artist"] →
                 f ∉ ["recording_name"; "length"; "recording_gid"; "video";
                      "artist_credit"] →
                 Forall (λ j, (h !!! j) !! f = None) joins) as Hnone.
    { intros f Hf1 Hf2. apply Forall_forall. intros j Hj.
      destruct (Hjoins j Hj) as (raw & key & [Hrun|Hrun]).
      - by eapply process_artist_credit_lookup.
      - by eapply process_recording_lookup. }
    split.
    + apply (for_sources_keeps excl sources joins h "area"); [|done].
      right. apply Hnone; not_in_list.
    + apply (for_sources_keeps excl sources joins h "gender"); [|done].
      right. apply Hnone; not_in_list.
Qed.

Lemma resolved_fields_reach_output_witness :
  ∃ rr, process_artists (raw_artist 5 "g1" "Bob" VNone (VInt 1))
          [entry 1 "Male"] [entry 7 "Paris"] = Ok (VInt 5, rr) ∧
        rr !! "gender" = Some (VStr "Male") ∧
        rr !! "area" = Some VNone.
Proof.
  destruct (resolved_fields_reach_output
              (raw_artist 5 "g1" "Bob" VNone (VInt 1))
              [entry 1 "Male"] [entry 7 "Paris"]
              (VInt 5) (VStr "g1") (VStr "Bob") VNone (VInt 1))
    as (rr & Hrun & _ & Hnone & Hgender & _).
  - apply ref_table_singleton.
  - apply ref_table_singleton.
  - reflexivity.
  - reflexivity.
  - reflexivity.
  - reflexivity.
  - reflexivity.
  - exists rr. split_and!; [exact Hrun| |].
    + destruct (Hgender eq_refl (entry 1 "Male")) as (s & Hs & ->).
      * by eapply matches_head; [apply entry_id|].
      * rewrite entry_name in Hs. by injection Hs as <-.
    + apply Hnone. intros g [Hin (i & Hi & Heq)].
      apply list_elem_of_singleton in Hin as ->.
      rewrite entry_id in Hi. injection Hi as <-. discriminate.
Defined.

(** C5 as it is worded fails on a row whose [gender] is [0] while the gender
    table has an entry with id [0]: the row comes out with [gender] still
    [0]. *)
Lemma process_artists_gender_zero_unresolved :
  let G := [entry 0 "Unknown"; entry 1 "Male"] in
  let A := [entry 3 "Oslo"] in
  ref_table G ∧ ref_table A ∧
  matches G (VInt 0) (entry 0 "Unknown") ∧
  process_artists (raw_artist 9 "g9" "Ann" (VInt 3) (VInt 0)) G A
  = Ok (VInt 9, artist 9 "g9" "Ann" (VStr "Oslo") (VInt 0)) ∧
  artist 9 "g9" "Ann" (VStr "Oslo") (VInt 0) !! "gender"
  ≠ entry 0 "Unknown" !! "name".
Proof.
  cbv zeta. split_and!.
  - by apply ref_table_pair.
  - apply ref_table_singleton.
  - by eapply matches_head; [apply entry_id|].
  - vm_compute. reflexivity.
  - by rewrite artist_gender, entry_name.
Qed.

(** ** Missing fields *)

(** A table with an entry that has no [id] makes the scan raise: for that
    entry's [id], or before it for the [name] of an entry that matched. *)
Lemma scan_entry_without_id field table rr g :
  is_Some (rr !! field) → g ∈ table → g !! "id" = None →
  ∃ f, f ∈ ["id"; "name"] ∧ scan field table rr = Raise (KeyError f).
Proof.
  intros Hf Hin Hnone. revert rr Hf.
  induction table as [|g0 table IH]; intros rr [cur Hcur].
  - by apply elem_of_nil in Hin.
  - cbn [scan]. destruct (g0 !! "id") as [i|] eqn:Hi.
    2: { exists "id". rewrite (getitem_None _ _ Hi). split; [in_list|done]. }
    apply elem_of_cons in Hin as [->|Hin]; [congruence|].
    rewrite (getitem_Some _ _ _ Hi), bind_Ok, (getitem_Some _ _ _ Hcur), bind_Ok.
    destruct (py_eq i cur); [|by apply IH; eauto].
    destruct (g0 !! "name") as [name|] eqn:Hn.
    + rewrite (getitem_Some _ _ _ Hn), bind_Ok. apply IH; [done|].
      rewrite lookup_insert_eq. eauto.
    + exists "name". rewrite (getitem_None _ _ Hn). split; [in_list|done].
Qed.

(** An entry that matches and has no [name] makes the scan raise for
    [name]. *)
Lemma scan_matched_without_name field (before after : list dict) g (rr : dict)
    v i :
  rr !! field = Some v → Forall (misses v) before →
  g !! "id" = Some i → py_eq i v = true → g !! "name" = None →
  scan field (before ++ g :: after)%list rr = Raise (KeyError "name").
Proof.
  intros Hf Hbefore Hid Heq Hname.
  induction Hbefore as [|g0 before (i0 & Hid0 & Hne) _ IH]; cbn [app].
  - by rewrite (scan_cons _ _ _ _ _ _ Hid Hf), Heq, (getitem_None _ _ Hname).
  - by rewrite (scan_cons _ _ _ _ _ _ Hid0 Hf), Hne.
Qed.

Lemma process_artist_credit_missing (raw : dict) f :
  f ∈ ["artist_credit"; "artist"] → raw !! f = None →
  ∃ f', f' ∈ ["artist_credit"; "artist"] ∧ raw !! f' = None ∧
        process_artist_credit raw = Raise (KeyError f').
Proof.
  intros Hf Hnone. unfold process_artist_credit.
  destruct (raw !! "artist_credit") as [ac|] eqn:Hac.
  2: { exists "artist_credit". rewrite (getitem_None _ _ Hac).
       split_and!; [in_list|done..]. }
  rewrite (getitem_Some _ _ _ Hac), bind_Ok.
  destruct (raw !! "artist") as [a|] eqn:Ha.
  2: { exists "artist". rewrite (getitem_None _ _ Ha).
       split_and!; [in_list|done..]. }
  exfalso. rewrite !elem_of_cons, elem_of_nil in Hf.
  destruct_or!; subst f; congruence.
Qed.

Lemma process_recording_missing (raw : dict) f :
  f ∈ ["name"; "length"; "gid"; "video"; "artist_credit"] → raw !! f = None →
  ∃ f', f' ∈ ["name"; "length"; "gid"; "video"; "artist_credit"] ∧
        raw !! f' = None ∧ process_recording raw = Raise (KeyError f').
Proof.
  intros Hf Hnone. unfold process_recording.
  destruct (raw !! "name") as [name|] eqn:Hname.
  2: { exists "name". rewrite (getitem_None _ _ Hname).
       split_and!; [in_list|done..]. }
  rewrite (getitem_Some _ _ _ Hname), bind_Ok.
  destruct (raw !! "length") as [len|] eqn:Hlen.
  2: { exists "length". rewrite (getitem_None _ _ Hlen).
       split_and!; [in_list|done..]. }
  rewrite (getitem_Some _ _ _ Hlen), bind_Ok.
  destruct (raw !! "gid") as [gid|] eqn:Hgid.
  2: { exists "gid". rewrite (getitem_None _ _ Hgid).
       split_and!; [in_list|done..]. }
  rewrite (getitem_Some _ _ _ Hgid), bind_Ok.
  destruct (raw !! "video") as [video|] eqn:Hvideo.
  2: { exists "video". rewrite (getitem_None _ _ Hvideo).
       split_and!; [in_list|done..]. }
  rewrite (getitem_Some _ _ _ Hvideo), bind_Ok.
  destruct (raw !! "artist_credit") as [ac|] eqn:Hac.
  2: { exists "artist_credit". rewrite (getitem_None _ _ Hac).
       split_and!; [in_list|done..]. }
  exfalso. rewrite !elem_of_cons, elem_of_nil in Hf.
  destruct_or!; subst f; congruence.
Qed.

(** C9, as amended.  A record that lacks a field the code subscripts makes
    the code raise [KeyError], and nothing is returned for it:
    [process_artists] on a row without one of [id], [gid], [name], [area],
    [gender]; [process_artist_credit] and [process_recording] on a row
    without one of the fields they read; a table scan on a table with an
    entry without [id], or with a matching entry without [name].  The merge
    subscripts no field of the records: [process] raises only when the
    element lacks the group named [source] or the one named [joined], and
    with both groups there it returns whatever the records hold, each yield
    showing a field that no right-hand record carries, and the excluded
    field, as the left-hand record had it, absent if it was absent. *)
Theorem missing_field_raises :
  (∀ row G A f, f ∈ artist_fields → row !! f = None →
     ∃ f', f' ∈ artist_fields ∧ row !! f' = None ∧
           process_artists row G A = Raise (KeyError f')) ∧
  (∀ (raw : dict) f, f ∈ ["artist_credit"; "artist"] → raw !! f = None →
     ∃ f', f' ∈ ["artist_credit"; "artist"] ∧ raw !! f' = None ∧
           process_artist_credit raw = Raise (KeyError f')) ∧
  (∀ (raw : dict) f,
     f ∈ ["name"; "length"; "gid"; "video"; "artist_credit"] →
     raw !! f = None →
     ∃ f', f' ∈ ["name"; "length"; "gid"; "video"; "artist_credit"] ∧
           raw !! f' = None ∧ process_recording raw = Raise (KeyError f')) ∧
  (∀ field table rr g, is_Some (rr !! field) → g ∈ table → g !! "id" = None →
     ∃ f', f' ∈ ["id"; "name"] ∧ scan field table rr = Raise (KeyError f')) ∧
  (∀ field (before after : list dict) g (rr : dict) v i,
     rr !! field = Some v → Forall (misses v) before →
     g !! "id" = Some i → py_eq i v = true → g !! "name" = None →
     scan field (before ++ g :: after)%list rr = Raise (KeyError "name")) ∧
  (∀ (h : heap) k (gd : gmap string (list loc)) source joined excl,
     gd !! source = None ∨ gd !! joined = None →
     ∃ f', f' ∈ [source; joined] ∧ gd !! f' = None ∧
           process h (k, gd) source joined excl = Raise (KeyError f')) ∧
  (∀ (h : heap) k (gd : gmap string (list loc)) source joined excl
     sources joins,
     gd !! source = Some sources → gd !! joined = Some joins →
     ∃ out h', process h (k, gd) source joined excl = Ok (out, h') ∧
       length out = length sources * length joins ∧
       ∀ y f, y ∈ out →
         obj y ∈ sources ∧
         (f = excl ∨ Forall (λ j, (h !!! j) !! f = None) joins →
          seen y !! f = (h !!! obj y) !! f)).
Proof.
  split_and!.
  - intros row G A f Hf Hnone.
    destruct (reduce_row_missing row f Hf Hnone) as (f' & Hf' & Hnone' & Hred).
    exists f'. split_and!; [done..|]. unfold process_artists. by rewrite Hred.
  - apply process_artist_credit_missing.
  - apply process_recording_missing.
  - apply scan_entry_without_id.
  - apply scan_matched_without_name.
  - intros h k gd source joined excl Hmiss. unfold process.
    destruct (gd !! source) as [sources|] eqn:Hs.
    + destruct Hmiss as [|Hj]; [done|]. exists joined.
      rewrite (getitem_Some _ _ _ Hs), bind_Ok, (getitem_None _ _ Hj).
      split_and!; [in_list|done..].
    + exists source. rewrite (getitem_None _ _ Hs). split_and!; [in_list|done..].
  - intros h k gd source joined excl sources joins Hs Hj.
    exists (for_sources excl sources joins h).1,
      (for_sources excl sources joins h).2.
    split_and!.
    + rewrite (process_Ok h k gd source joined excl sources joins Hs Hj).
      by destruct (for_sources _ _ _ _).
    + apply for_sources_length.
    + intros y f Hy. split; [by eapply for_sources_obj|]. intros Hf.
      by apply (for_sources_keeps excl sources joins h f Hf).
Qed.

Lemma missing_field_raises_witness :
  process_artists (delete "gid" (raw_artist 5 "g1" "Bob" VNone (VInt 1)))
    [entry 1 "Male"] [] = Raise (KeyError "gid") ∧
  process (store [artist 1 "g1" "Bob" VNone VNone])
    (VInt 1, {["artists" := [0]]}) "artists" "artist_credit_name" "artist"
  = Raise (KeyError "artist_credit_name") ∧
  ∃ out h',
    process (store [artist 1 "g1" "Bob" VNone VNone; <["artist" := VInt 1]> ∅])
      (VInt 1, grouped "artists" "artist_credit_name" [0] [1])
      "artists" "artist_credit_name" "artist" = Ok (out, h') ∧
    ∀ y, y ∈ out → seen y !! "artist_credit" = None.
Proof.
  destruct missing_field_raises as (Hrow & _ & _ & _ & _ & Hmerge & Hrecords).
  split_and!.
  - destruct (Hrow (delete "gid" (raw_artist 5 "g1" "Bob" VNone (VInt 1)))
                [entry 1 "Male"] [] "gid") as (f' & Hf' & Hnone & ->).
    + unfold artist_fields. in_list.
    + reflexivity.
    + unfold artist_fields in Hf'. rewrite !elem_of_cons, elem_of_nil in Hf'.
      destruct_or!; subst f'; try discriminate; done.
  - destruct (Hmerge (store [artist 1 "g1" "Bob" VNone VNone]) (VInt 1)
                {["artists" := [0]]} "artists" "artist_credit_name" "artist")
      as (f' & Hf' & Hnone & ->).
    + right. reflexivity.
    + rewrite !elem_of_cons, elem_of_nil in Hf'.
      destruct_or!; subst f'; try discriminate; done.
  - destruct (Hrecords
                (store [artist 1 "g1" "Bob" VNone VNone; <["artist" := VInt 1]> ∅])
                (VInt 1) (grouped "artists" "artist_credit_name" [0] [1])
                "artists" "artist_credit_name" "artist" [0] [1]
                eq_refl eq_refl) as (out & h' & Hrun & Hlen & Hkeep).
    exists out, h'. split; [exact Hrun|]. intros y Hy.
    destruct (Hkeep y "artist_credit" Hy) as [Hobj ->].
    + apply list_elem_of_singleton in Hobj. rewrite Hobj. reflexivity.
    + right. repeat constructor.
Defined.

(** C9 as it is worded fails on the merge: a right-hand record without
    [artist_credit] is merged without any error, and the record that is
    yielded has no [artist_credit], the field line 190 subscripts next. *)
Lemma merge_emits_record_without_field :
  let h := store [artist 1 "g1" "Bob" VNone VNone; <["artist" := VInt 1]> ∅] in
  (h !!! 1) !! "artist_credit" = None ∧
  process h (VInt 1, grouped "artists" "artist_credit_name" [0] [1])
    "artists" "artist_credit_name" "artist"
  = Ok ([Emit 0 (artist 1 "g1" "Bob" VNone VNone)], h) ∧
  artist 1 "g1" "Bob" VNone VNone !! "artist_credit" = None ∧
  rekey (artist 1 "g1" "Bob" VNone VNone) = Raise (KeyError "artist_credit").
Proof.
  cbv zeta. split_and!; vm_compute; reflexivity.
Qed.

(** * Further properties of the code *)

(** ** The projections *)

(** X1.  On a parsed row, [process_gender_or_area] keeps [id] and [name] as
    the row has them and nothing else, and reports the first of the two the
    row lacks. *)
Theorem process_gender_or_area_projects (row : dict) :
  match process_gender_or_area row with
  | Ok g =>
      (∀ f, g !! f = if decide (f ∈ ["id"; "name"]) then row !! f else None) ∧
      is_Some (row !! "id") ∧ is_Some (row !! "name")
  | Raise e =>
      (row !! "id" = None ∧ e = KeyError "id") ∨
      (is_Some (row !! "id") ∧ row !! "name" = None ∧ e = KeyError "name")
  end.
Proof.
  unfold process_gender_or_area at 1.
  destruct (row !! "id") as [id|] eqn:Hid.
  2: { rewrite (getitem_None _ _ Hid). by left. }
  rewrite (getitem_Some _ _ _ Hid), bind_Ok.
  destruct (row !! "name") as [name|] eqn:Hname.
  2: { rewrite (getitem_None _ _ Hname). right. eauto. }
  rewrite (getitem_Some _ _ _ Hname), bind_Ok. split_and!; [|eauto..].
  intros f. rewrite !lookup_insert, lookup_empty.
  repeat case_decide; subst; try done.
  - exfalso. by rewrite !not_elem_of_cons in *; destruct_and!.
  - exfalso. by rewrite !not_elem_of_cons in *; destruct_and!.
  - exfalso. rewrite !elem_of_cons, elem_of_nil in *. by destruct_or!.
Qed.

(** X2.  On a parsed row, [process_artist_credit] keys the row by its
    [artist], keeps [artist_credit] and [artist] and nothing else, and
    reports the first of the two the row lacks. *)
Theorem process_artist_credit_projects (row : dict) :
  match process_artist_credit row with
  | Ok (key, d) =>
      row !! "artist" = Some key ∧
      (∀ f, d !! f = if decide (f ∈ ["artist_credit"; "artist"])
                     then row !! f else None)
  | Raise e =>
      (row !! "artist_credit" = None ∧ e = KeyError "artist_credit") ∨
      (is_Some (row !! "artist_credit") ∧ row !! "artist" = None ∧
       e = KeyError "artist")
  end.
Proof.
  unfold process_artist_credit at 1.
  destruct (row !! "artist_credit") as [ac|] eqn:Hac.
  2: { rewrite (getitem_None _ _ Hac). by left. }
  rewrite (getitem_Some _ _ _ Hac), bind_Ok.
  destruct (row !! "artist") as [a|] eqn:Ha.
  2: { rewrite (getitem_None _ _ Ha). right. eauto. }
  rewrite (getitem_Some _ _ _ Ha), bind_Ok. cbn zeta.
  rewrite (getitem_Some _ "artist" a), bind_Ok by done. split; [done|].
  intros f. rewrite !lookup_insert, lookup_empty.
  repeat case_decide; subst; try done.
  - exfalso. by rewrite !not_elem_of_cons in *; destruct_and!.
  - exfalso. by rewrite !not_elem_of_cons in *; destruct_and!.
  - exfalso. rewrite !elem_of_cons, elem_of_nil in *. by destruct_or!.
Qed.

(** X3.  On a parsed row, [process_recording] keys the row by its
    [artist_credit] and keeps five fields, two of them renamed ([name] to
    [recording_name], [gid] to [recording_gid]), and nothing else; it raises
    [KeyError] for a field the row lacks. *)
Theorem process_recording_projects (row : dict) :
  match process_recording row with
  | Ok (key, d) =>
      row !! "artist_credit" = Some key ∧
      d !! "recording_name" = row !! "name" ∧
      d !! "length" = row !! "length" ∧
      d !! "recording_gid" = row !! "gid" ∧
      d !! "video" = row !! "video" ∧
      d !! "artist_credit" = row !! "artist_credit" ∧
      (∀ f, f ∉ ["recording_name"; "length"; "recording_gid"; "video";
                 "artist_credit"] → d !! f = None)
  | Raise e =>
      ∃ f, f ∈ ["name"; "length"; "gid"; "video"; "artist_credit"] ∧
           row !! f = None ∧ e = KeyError f
  end.
Proof.
  destruct (process_recording row) as [[key d]|e] eqn:Hrun.
  - pose proof (λ f, process_recording_lookup row key d f Hrun) as Habsent.
    unfold process_recording in Hrun.
    destruct (row !! "name") as [name|] eqn:Hname;
      [rewrite (getitem_Some _ _ _ Hname), bind_Ok in Hrun
      |by rewrite (getitem_None _ _ Hname) in Hrun].
    destruct (row !! "length") as [len|] eqn:Hlen;
      [rewrite (getitem_Some _ _ _ Hlen), bind_Ok in Hrun
      |by rewrite (getitem_None _ _ Hlen) in Hrun].
    destruct (row !! "gid") as [gid|] eqn:Hgid;
      [rewrite (getitem_Some _ _ _ Hgid), bind_Ok in Hrun
      |by rewrite (getitem_None _ _ Hgid) in Hrun].
    destruct (row !! "video") as [video|] eqn:Hvideo;
      [rewrite (getitem_Some _ _ _ Hvideo), bind_Ok in Hrun
      |by rewrite (getitem_None _ _ Hvideo) in Hrun].
    destruct (row !! "artist_credit") as [ac|] eqn:Hac;
      [rewrite (getitem_Some _ _ _ Hac), bind_Ok in Hrun
      |by rewrite (getitem_None _ _ Hac) in Hrun].
    cbn zeta in Hrun.
    rewrite (getitem_Some _ "artist_credit" ac), bind_Ok in Hrun by done.
    injection Hrun as <- <-. by split_and!.
  - unfold process_recording in Hrun.
    destruct (row !! "name") as [name|] eqn:Hname.
    2: { rewrite (getitem_None _ _ Hname) in Hrun. injection Hrun as <-.
         exists "name". split_and!; [in_list|done..]. }
    rewrite (getitem_Some _ _ _ Hname), bind_Ok in Hrun.
    destruct (row !! "length") as [len|] eqn:Hlen.
    2: { rewrite (getitem_None _ _ Hlen) in Hrun. injection Hrun as <-.
         exists "length". split_and!; [in_list|done..]. }
    rewrite (getitem_Some _ _ _ Hlen), bind_Ok in Hrun.
    destruct (row !! "gid") as [gid|] eqn:Hgid.
    2: { rewrite (getitem_None _ _ Hgid) in Hrun. injection Hrun as <-.
         exists "gid". split_and!; [in_list|done..]. }
    rewrite (getitem_Some _ _ _ Hgid), bind_Ok in Hrun.
    destruct (row !! "video") as [video|] eqn:Hvideo.
    2: { rewrite (getitem_None _ _ Hvideo) in Hrun. injection Hrun as <-.
         exists "video". split_and!; [in_list|done..]. }
    rewrite (getitem_Some _ _ _ Hvideo), bind_Ok in Hrun.
    destruct (row !! "artist_credit") as [ac|] eqn:Hac.
    2: { rewrite (getitem_None _ _ Hac) in Hrun. injection Hrun as <-.
         exists "artist_credit". split_and!; [in_list|done..]. }
    rewrite (getitem_Some _ _ _ Hac), bind_Ok in Hrun. cbn zeta in Hrun.
    by rewrite (getitem_Some _ "artist_credit" ac) in Hrun.
Qed.

(** ** What [process_artists] keeps *)

(** A scan that returns leaves the set of fields as it was. *)
Lemma scan_dom field table (rr rr' : dict) :
  scan field table rr = Ok rr' → dom rr' = dom rr.
Proof.
  revert rr. induction table as [|g table IH]; intros rr Hscan.
  - by injection Hscan as <-.
  - cbn [scan] in Hscan.
    destruct (getitem g "id") as [i|]; [|done]. rewrite bind_Ok in Hscan.
    destruct (getitem_inv rr field _ eq_refl) as [(cur & Hcur & Hget)|[_ Hget]];
      rewrite Hget in Hscan; [|done].
    rewrite bind_Ok in Hscan. destruct (py_eq i cur); [|by apply IH].
    destruct (getitem g "name") as [name|]; [|done]. rewrite bind_Ok in Hscan.
    rewrite (IH _ Hscan). apply dom_insert_lookup_L. eauto.
Qed.

Lemma resolve_dom (rr rr' : dict) G A :
  resolve rr G A = Ok rr' → dom rr' = dom rr.
Proof.
  unfold resolve. intros Hres.
  destruct (getitem rr "gender") as [gv|]; [|done]. rewrite bind_Ok in Hres.
  destruct (truthy gv).
  - destruct (scan "gender" G rr) as [m|] eqn:Hm; [|done]. rewrite bind_Ok in Hres.
    by rewrite (scan_dom _ _ _ _ Hres), (scan_dom _ _ _ _ Hm).
  - rewrite bind_Ok in Hres. by rewrite (scan_dom _ _ _ _ Hres).
Qed.

Lemma resolve_other_field rr G A rr' f :
  f ≠ "gender" → f ≠ "area" → resolve rr G A = Ok rr' → rr' !! f = rr !! f.
Proof.
  intros Hg Ha Hres. unfold resolve in Hres.
  destruct (getitem rr "gender") as [gv|]; [|done]. rewrite bind_Ok in Hres.
  destruct (truthy gv).
  - destruct (scan "gender" G rr) as [m|] eqn:Hm; [|done]. rewrite bind_Ok in Hres.
    by rewrite (scan_other_field _ _ _ _ _ Ha Hres), (scan_other_field _ _ _ _ _ Hg Hm).
  - rewrite bind_Ok in Hres. by rewrite (scan_other_field _ _ _ _ _ Ha Hres).
Qed.

(** X4.  Whatever the two tables hold, when [process_artists] returns: the key is
    the row's [id]; [id], [gid] and [name] arrive unchanged under [id],
    [artist_gid] and [artist_name]; the record has the five fields of an
    artist record and no other; and, [gid] being renamed, [process_artists]
    raises [KeyError] for [gid] when applied to its own result. *)
Theorem process_artists_keeps_identity row G A key rr :
  process_artists row G A = Ok (key, rr) →
  row !! "id" = Some key ∧
  rr !! "id" = row !! "id" ∧
  rr !! "artist_gid" = row !! "gid" ∧
  rr !! "artist_name" = row !! "name" ∧
  (∀ f, is_Some (rr !! f) ↔
        f ∈ ["id"; "artist_gid"; "artist_name"; "area"; "gender"]) ∧
  (∀ G' A', process_artists rr G' A' = Raise (KeyError "gid")).
Proof.
  intros Hrun.
  pose proof (λ f, process_artists_absent row G A key rr f Hrun) as Habsent.
  destruct (process_artists_inv _ _ _ _ _ Hrun) as (rr0 & Hred & Hres & Hkey).
  pose proof (λ f Hg Ha, resolve_other_field rr0 G A rr f Hg Ha Hres) as Hkeep.
  pose proof (resolve_dom _ _ _ _ Hres) as Hdom.
  unfold reduce_row in Hred.
  destruct (row !! "id") as [vid|] eqn:Hid;
    [rewrite (getitem_Some _ _ _ Hid), bind_Ok in Hred
    |by rewrite (getitem_None _ _ Hid) in Hred].
  destruct (row !! "gid") as [vgid|] eqn:Hgid;
    [rewrite (getitem_Some _ _ _ Hgid), bind_Ok in Hred
    |by rewrite (getitem_None _ _ Hgid) in Hred].
  destruct (row !! "name") as [vname|] eqn:Hname;
    [rewrite (getitem_Some _ _ _ Hname), bind_Ok in Hred
    |by rewrite (getitem_None _ _ Hname) in Hred].
  destruct (row !! "area") as [va|] eqn:Ha;
    [rewrite (getitem_Some _ _ _ Ha), bind_Ok in Hred
    |by rewrite (getitem_None _ _ Ha) in Hred].
  destruct (row !! "gender") as [vg|] eqn:Hg;
    [rewrite (getitem_Some _ _ _ Hg), bind_Ok in Hred
    |by rewrite (getitem_None _ _ Hg) in Hred].
  injection Hred as <-.
  assert (rr !! "id" = Some vid) as Hid' by (by rewrite Hkeep).
  split_and!.
  - congruence.
  - done.
  - by rewrite Hkeep.
  - by rewrite Hkeep.
  - intros f. split.
    + intros Hsome. destruct (decide
        (f ∈ ["id"; "artist_gid"; "artist_name"; "area"; "gender"]))
        as [|Hout]; [done|].
      rewrite (Habsent f Hout) in Hsome. by destruct Hsome.
    + intros Hin. apply elem_of_dom. rewrite Hdom. apply elem_of_dom.
      rewrite !elem_of_cons, elem_of_nil in Hin. destruct_or!; by subst f.
  - intros G' A'. unfold process_artists, reduce_row.
    destruct (rr !! "id") as [v|] eqn:Hv; [|done].
    rewrite (getitem_Some _ _ _ Hv), bind_Ok.
    rewrite (getitem_None rr "gid"); [done|]. apply Habsent. not_in_list.
Qed.

Lemma process_artists_keeps_identity_witness :
  artist 5 "g1" "Bob" VNone (VStr "Male") !! "artist_gid"
  = raw_artist 5 "g1" "Bob" VNone (VInt 1) !! "gid" ∧
  process_artists (artist 5 "g1" "Bob" VNone (VStr "Male")) [entry 1 "Male"] []
  = Raise (KeyError "gid").
Proof.
  destruct (process_artists_keeps_identity
              (raw_artist 5 "g1" "Bob" VNone (VInt 1)) [entry 1 "Male"] []
              (VInt 5) (artist 5 "g1" "Bob" VNone (VStr "Male")))
    as (_ & _ & Hgid & _ & _ & Hagain).
  - vm_compute. reflexivity.
  - split; [exact Hgid|apply Hagain].
Defined.

(** ** The scan, entry by entry *)

(** X5.  Scanning a table made of two parts is scanning the first part and then
    the second one on what the first one returned. *)
Theorem scan_app field (table1 table2 : list dict) (rr : dict) :
  scan field (table1 ++ table2)%list rr =
    scan field table1 rr ≫= scan field table2.
Proof.
  revert rr. induction table1 as [|g table1 IH]; intros rr; [done|].
  cbn [scan app]. destruct (getitem g "id") as [i|]; [|done]. rewrite !bind_Ok.
  destruct (getitem rr field) as [cur|]; [|done]. rewrite !bind_Ok.
  destruct (py_eq i cur); [|by apply IH].
  destruct (getitem g "name") as [name|]; [|done]. rewrite !bind_Ok.
  apply IH.
Qed.

(** Entries whose ids all differ from the field's value are passed over:
    their [name] is not even read. *)
Lemma scan_misses field table (rr : dict) v :
  Forall (misses v) table → rr !! field = Some v →
  scan field table rr = Ok rr.
Proof.
  intros Htab Hf. induction Htab as [|g table (i & Hid & Hne) _ IH]; [done|].
  by rewrite (scan_cons _ _ _ _ _ _ Hid Hf), Hne.
Qed.

(** X6.  An unresolved reference is not an error: when no entry of either table
    has the id the field holds, the record comes back as it was, even from
    tables whose entries have no [name]. *)
Theorem resolve_unmatched (rr : dict) G A vg va :
  rr !! "gender" = Some vg → rr !! "area" = Some va →
  Forall (misses vg) G → Forall (misses va) A →
  resolve rr G A = Ok rr.
Proof.
  intros Hg Ha HG HA. rewrite (resolve_unfold _ _ _ _ Hg).
  destruct (truthy vg).
  - by rewrite (scan_misses "gender" G rr vg HG Hg), bind_Ok,
      (scan_misses "area" A rr va HA Ha).
  - by rewrite bind_Ok, (scan_misses "area" A rr va HA Ha).
Qed.

Lemma resolve_unmatched_witness :
  resolve (artist 5 "g1" "Bob" (VInt 7) (VInt 3))
    [<["id" := VInt 1]> ∅; <["id" := VInt 2]> ∅] [<["id" := VInt 8]> ∅]
  = Ok (artist 5 "g1" "Bob" (VInt 7) (VInt 3)).
Proof.
  apply (resolve_unmatched _ _ _ (VInt 3) (VInt 7)).
  - apply artist_gender.
  - apply artist_area.
  - repeat constructor; eexists; split; reflexivity.
  - repeat constructor; eexists; split; reflexivity.
Defined.

(** X7.  When several entries carry the id the field holds, the first one in
    table order gives the name: once the field holds a string, no integer id
    equals it any more. *)
Theorem scan_first_match_wins field (before after : list dict) g (rr : dict)
    v i s :
  rr !! field = Some v →
  Forall (misses v) before →
  g !! "id" = Some i → py_eq i v = true → g !! "name" = Some (VStr s) →
  Forall has_int_id after →
  scan field (before ++ g :: after)%list rr = Ok (<[field := VStr s]> rr).
Proof.
  intros Hf Hbefore Hid Heq Hname Hafter.
  rewrite scan_app, (scan_misses field before rr v Hbefore Hf), bind_Ok.
  rewrite (scan_cons _ _ _ _ _ _ Hid Hf), Heq, (getitem_Some _ _ _ Hname), bind_Ok.
  apply (scan_string_noop field after _ s Hafter). by rewrite lookup_insert_eq.
Qed.

Lemma scan_first_match_wins_witness :
  scan "area" [entry 3 "Oslo"; entry 7 "Paris"; entry 7 "Lutetia"]
    (artist 5 "g1" "Bob" (VInt 7) VNone)
  = Ok (<["area" := VStr "Paris"]> (artist 5 "g1" "Bob" (VInt 7) VNone)).
Proof.
  apply (scan_first_match_wins "area" [entry 3 "Oslo"] [entry 7 "Lutetia"]
           (entry 7 "Paris") _ (VInt 7) (VInt 7) "Paris").
  - apply artist_area.
  - repeat constructor. exists (VInt 3). split; [apply entry_id|reflexivity].
  - apply entry_id.
  - reflexivity.
  - apply entry_name.
  - repeat constructor. exists 7%Z. apply entry_id.
Defined.

(** ** The merge, group by group *)

Lemma cartesian_merge_cons excl (src : dict) sources joins :
  cartesian_merge excl (src :: sources) joins =
    ((merged_copy excl src <$> joins) ++ cartesian_merge excl sources joins)%list.
Proof.
  unfold cartesian_merge. cbn [mbind list_bind]. by f_equal.
Qed.

Lemma for_joins_same_fields_all excl src joins (h : heap) :
  src ∉ joins →
  (∀ j j', j ∈ joins → j' ∈ joins → dom (h !!! j) = dom (h !!! j')) →
  (for_joins excl src joins h).1 =
    (λ j, Emit src (merged_copy excl (h !!! src) (h !!! j))) <$> joins.
Proof.
  intros Hsrc Hdom. apply list_eq. intros i. rewrite list_lookup_fmap.
  destruct (joins !! i) as [j|] eqn:Hj; cbn.
  - destruct (lookup_lt_is_Some_2 (for_joins excl src joins h).1 i) as [y Hy].
    { rewrite for_joins_length. by eapply lookup_lt_Some. }
    rewrite Hy. f_equal.
    pose proof (for_joins_same_fields excl src joins h i y j Hsrc Hdom Hy Hj) as Hseen.
    pose proof (for_joins_obj excl src joins h y (list_elem_of_lookup_2 _ _ _ Hy))
      as Hobj.
    destruct y as [o d]. cbn in *. by subst.
  - apply lookup_ge_None. rewrite for_joins_length. by apply lookup_ge_None.
Qed.

(** Two starting contents that agree wherever the right-hand contents do
    not write end up equal. *)
Lemma apply_joins_agree excl (src src' : dict) joins :
  (∀ f, f = excl ∨ Forall (λ join : dict, join !! f = None) joins →
        src' !! f = src !! f) →
  apply_joins excl src' joins = apply_joins excl src joins.
Proof.
  intros Hagree. apply map_eq. intros f. specialize (Hagree f).
  induction joins as [|last joins IH] using rev_ind.
  - apply Hagree. by right.
  - rewrite !apply_joins_snoc, !assign_items_lookup.
    case_decide as Hf.
    + apply IH. intros _. apply Hagree. by left.
    + destruct (last !! f) eqn:Hlast; [done|].
      apply IH. intros [->|Hnone]; [done|].
      apply Hagree. right. apply Forall_app. split; [done|]. by constructor.
Qed.

(** Applying the same right-hand contents a second time changes nothing. *)
Lemma apply_joins_idem excl (src : dict) joins :
  apply_joins excl (apply_joins excl src joins) joins =
    apply_joins excl src joins.
Proof.
  rewrite <- (apply_joins_agree excl src (apply_joins excl src joins) joins) at 2;
    [done|].
  intros f [->|Hnone]; [apply apply_joins_excluded|by apply apply_joins_keeps].
Qed.

Lemma contents_unchanged (h h1 : heap) (ls : list loc) :
  (∀ l, l ∈ ls → h1 !!! l = h !!! l) →
  (h1 !!!.) <$> ls = (h !!!.) <$> ls.
Proof.
  intros Hsame. apply list_fmap_ext. intros _ l Hl%list_elem_of_lookup_2.
  by apply Hsame.
Qed.

Lemma for_sources_cartesian excl sources joins (h : heap) :
  NoDup sources →
  (∀ j, j ∈ joins → j ∉ sources) →
  (∀ j j', j ∈ joins → j' ∈ joins → dom (h !!! j) = dom (h !!! j')) →
  seen <$> (for_sources excl sources joins h).1 =
    cartesian_merge excl ((h !!!.) <$> sources) ((h !!!.) <$> joins).
Proof.
  revert h. induction sources as [|src sources IH]; intros h Hnd Hdisj Hdom; [done|].
  apply NoDup_cons in Hnd as [Hfresh Hnd].
  assert (src ∉ joins) as Hsrc.
  { intros Hin. apply (Hdisj src Hin). left. }
  assert (∀ l, l ≠ src → (for_joins excl src joins h).2 !!! l = h !!! l) as Hother.
  { intros l Hl. by apply for_joins_other. }
  rewrite for_sources_cons. cbn zeta. cbn [fst].
  rewrite fmap_app, fmap_cons, cartesian_merge_cons. f_equal.
  - rewrite (for_joins_same_fields_all excl src joins h Hsrc Hdom).
    by rewrite <- !list_fmap_compose.
  - rewrite IH.
    + f_equal; apply contents_unchanged; intros l Hl; apply Hother; congruence.
    + done.
    + intros j Hj Hin. apply (Hdisj j Hj). by right.
    + intros j j' Hj Hj'. rewrite !Hother by congruence. by apply Hdom.
Qed.

(** What the outer loop leaves in the store. *)
Lemma for_sources_final excl sources joins (h : heap) l :
  (∀ j, j ∈ joins → j ∉ sources) →
  (for_sources excl sources joins h).2 !!! l =
    if decide (l ∈ sources)
    then apply_joins excl (h !!! l) ((h !!!.) <$> joins)
    else h !!! l.
Proof.
  revert h. induction sources as [|src sources IH]; intros h Hdisj.
  - cbn. by rewrite decide_False by apply not_elem_of_nil.
  - assert (src ∉ joins) as Hsrc.
    { intros Hin. apply (Hdisj src Hin). left. }
    rewrite for_sources_cons. cbn zeta. cbn [snd]. rewrite IH.
    2: { intros j Hj Hin. apply (Hdisj j Hj). by right. }
    rewrite (contents_unchanged h (for_joins excl src joins h).2 joins).
    2: { intros j Hj. apply for_joins_other. congruence. }
    pose proof (proj2 (for_joins_seen excl src joins h Hsrc)) as Hfinal.
    destruct (decide (l = src)) as [->|Hne].
    + rewrite Hfinal, (decide_True (P := src ∈ src :: sources)) by left.
      case_decide; [apply apply_joins_idem|done].
    + rewrite for_joins_other by done.
      destruct (decide (l ∈ sources)) as [Hin|Hout].
      * by rewrite decide_True by (by right).
      * rewrite decide_False; [done|]. by intros [?|?]%elem_of_cons.
Qed.

(** X9.  When the right-hand records of a group all carry the same field names
    and the records of the two groups are distinct objects, the records
    [process] yields, as shown at their yields, are the copy-and-overwrite
    merges of all the pairs, left-hand record by left-hand record. *)
Theorem process_is_cartesian_merge (h : heap) k gd source joined excl
    sources joins :
  gd !! source = Some sources → gd !! joined = Some joins →
  NoDup sources →
  (∀ j, j ∈ joins → j ∉ sources) →
  (∀ j j', j ∈ joins → j' ∈ joins → dom (h !!! j) = dom (h !!! j')) →
  ∃ out h', process h (k, gd) source joined excl = Ok (out, h') ∧
    seen <$> out =
      cartesian_merge excl ((h !!!.) <$> sources) ((h !!!.) <$> joins).
Proof.
  intros Hs Hj Hnd Hdisj Hdom.
  exists (for_sources excl sources joins h).1, (for_sources excl sources joins h).2.
  split.
  - rewrite (process_Ok h k gd source joined excl sources joins Hs Hj).
    by destruct (for_sources _ _ _ _).
  - by apply for_sources_cartesian.
Qed.

Lemma process_is_cartesian_merge_witness :
  ∃ out h',
    process (store [artist 1 "g1" "Bob" VNone VNone;
                    artist 2 "g2" "Ann" VNone VNone;
                    credit 10 1; credit 11 1])
      (VInt 1, grouped "artists" "artist_credit_name" [0; 1] [2; 3])
      "artists" "artist_credit_name" "artist" = Ok (out, h') ∧
    seen <$> out =
      cartesian_merge "artist"
        [artist 1 "g1" "Bob" VNone VNone; artist 2 "g2" "Ann" VNone VNone]
        [credit 10 1; credit 11 1].
Proof.
  destruct (process_is_cartesian_merge
              (store [artist 1 "g1" "Bob" VNone VNone;
                      artist 2 "g2" "Ann" VNone VNone;
                      credit 10 1; credit 11 1])
              (VInt 1) (grouped "artists" "artist_credit_name" [0; 1] [2; 3])
              "artists" "artist_credit_name" "artist" [0; 1] [2; 3])
    as (out & h' & Hrun & Hout).
  - reflexivity.
  - reflexivity.
  - apply NoDup_cons. split; [not_in_list|]. apply NoDup_singleton.
  - intros j Hj. rewrite !elem_of_cons, elem_of_nil in Hj.
    destruct_or!; subst j; try done; not_in_list.
  - intros j j' Hj Hj'. rewrite !elem_of_cons, elem_of_nil in Hj, Hj'.
    destruct_or!; subst j j'; try done; vm_compute; reflexivity.
  - exists out, h'. split; [exact Hrun|exact Hout].
Defined.

(** X10.  When [process] is exhausted, each left-hand record holds what it held
    at the start overwritten by all the right-hand records of the group in
    order, and every other object of the store, the right-hand records
    among them, holds what it held at the start. *)
Theorem process_final_store (h : heap) k gd source joined excl sources joins :
  gd !! source = Some sources → gd !! joined = Some joins →
  (∀ j, j ∈ joins → j ∉ sources) →
  ∃ out h', process h (k, gd) source joined excl = Ok (out, h') ∧
    (∀ l, l ∈ sources →
       h' !!! l = apply_joins excl (h !!! l) ((h !!!.) <$> joins)) ∧
    (∀ l, l ∉ sources → h' !!! l = h !!! l).
Proof.
  intros Hs Hj Hdisj.
  exists (for_sources excl sources joins h).1, (for_sources excl sources joins h).2.
  split_and!.
  - rewrite (process_Ok h k gd source joined excl sources joins Hs Hj).
    by destruct (for_sources _ _ _ _).
  - intros l Hl. by rewrite for_sources_final, decide_True.
  - intros l Hl. by apply for_sources_other.
Qed.

Lemma process_final_store_witness :
  ∃ out h',
    process (store [artist 1 "g1" "Bob" VNone VNone; credit 10 1; credit 11 1])
      (VInt 1, grouped "artists" "artist_credit_name" [0] [1; 2])
      "artists" "artist_credit_name" "artist" = Ok (out, h') ∧
    h' !!! 0 = <["artist_credit" := VInt 11]> (artist 1 "g1" "Bob" VNone VNone) ∧
    h' !!! 1 = credit 10 1.
Proof.
  destruct (process_final_store
              (store [artist 1 "g1" "Bob" VNone VNone; credit 10 1; credit 11 1])
              (VInt 1) (grouped "artists" "artist_credit_name" [0] [1; 2])
              "artists" "artist_credit_name" "artist" [0] [1; 2])
    as (out & h' & Hrun & Hleft & Hother).
  - reflexivity.
  - reflexivity.
  - intros j Hj. rewrite !elem_of_cons, elem_of_nil in Hj.
    destruct_or!; subst j; try done; not_in_list.
  - exists out, h'. split_and!; [exact Hrun| |].
    + rewrite (Hleft 0) by in_list. vm_compute. reflexivity.
    + rewrite (Hother 1) by not_in_list. reflexivity.
Defined.

(** X11.  Running [process] again on the store a first run left behind leaves the
    store as it is. *)
Theorem process_rerun_keeps_store (h : heap) k gd source joined excl
    sources joins out h' :
  gd !! source = Some sources → gd !! joined = Some joins →
  (∀ j, j ∈ joins → j ∉ sources) →
  process h (k, gd) source joined excl = Ok (out, h') →
  ∃ out2 h2, process h' (k, gd) source joined excl = Ok (out2, h2) ∧
    length out2 = length out ∧
    ∀ l, h2 !!! l = h' !!! l.
Proof.
  intros Hs Hj Hdisj Hrun.
  rewrite (process_Ok h k gd source joined excl sources joins Hs Hj) in Hrun.
  injection Hrun as Hrun.
  assert (out = (for_sources excl sources joins h).1) as -> by (by rewrite Hrun).
  assert (h' = (for_sources excl sources joins h).2) as -> by (by rewrite Hrun).
  clear Hrun.
  exists (for_sources excl sources joins (for_sources excl sources joins h).2).1,
    (for_sources excl sources joins (for_sources excl sources joins h).2).2.
  split_and!.
  - rewrite (process_Ok _ k gd source joined excl sources joins Hs Hj).
    by destruct (for_sources excl sources joins (for_sources _ _ _ _).2).
  - by rewrite !for_sources_length.
  - intros l. rewrite (for_sources_final _ _ _ (for_sources _ _ _ _).2) by done.
    case_decide as Hl; [|done].
    rewrite (contents_unchanged h (for_sources excl sources joins h).2 joins).
    2: { intros j Hin. apply for_sources_other. by apply Hdisj. }
    rewrite for_sources_final, decide_True by done. apply apply_joins_idem.
Qed.

Lemma process_rerun_keeps_store_witness :
  ∃ out2 h2,
    process
      (store [<["join_phrase" := VStr "feat."]>
                (<["artist_credit" := VInt 11]> (artist 1 "g1" "Bob" VNone VNone));
              <["join_phrase" := VStr "feat."]> (credit 10 1);
              credit 11 1])
      (VInt 1, grouped "artists" "artist_credit_name" [0] [1; 2])
      "artists" "artist_credit_name" "artist" = Ok (out2, h2) ∧
    h2 !!! 0 = <["join_phrase" := VStr "feat."]>
                 (<["artist_credit" := VInt 11]> (artist 1 "g1" "Bob" VNone VNone)).
Proof.
  destruct (process_rerun_keeps_store
              (store [artist 1 "g1" "Bob" VNone VNone;
                      <["join_phrase" := VStr "feat."]> (credit 10 1);
                      credit 11 1])
              (VInt 1) (grouped "artists" "artist_credit_name" [0] [1; 2])
              "artists" "artist_credit_name" "artist" [0] [1; 2]
              [Emit 0 (<["join_phrase" := VStr "feat."]>
                         (<["artist_credit" := VInt 10]>
                            (artist 1 "g1" "Bob" VNone VNone)));
               Emit 0 (<["join_phrase" := VStr "feat."]>
                         (<["artist_credit" := VInt 11]>
                            (artist 1 "g1" "Bob" VNone VNone)))]
              (store [<["join_phrase" := VStr "feat."]>
                        (<["artist_credit" := VInt 11]>
                           (artist 1 "g1" "Bob" VNone VNone));
                      <["join_phrase" := VStr "feat."]> (credit 10 1);
                      credit 11 1]))
    as (out2 & h2 & Hrun & _ & Hsame).
  - reflexivity.
  - reflexivity.
  - intros j Hj. rewrite !elem_of_cons, elem_of_nil in Hj.
    destruct_or!; subst j; try done; not_in_list.
  - vm_compute. reflexivity.
  - exists out2, h2. split; [exact Hrun|]. rewrite Hsame. reflexivity.
Defined.

(** ** The two merges of [main] on one artist, one credit and one recording *)

Lemma process_artist_credit_inv raw key (d : dict) :
  process_artist_credit raw = Ok (key, d) →
  ∃ ac, raw !! "artist_credit" = Some ac ∧ raw !! "artist" = Some key ∧
        d = <["artist" := key]> (<["artist_credit" := ac]> ∅).
Proof.
  unfold process_artist_credit. intros Hrun.
  destruct (raw !! "artist_credit") as [ac|] eqn:Hac;
    [rewrite (getitem_Some _ _ _ Hac), bind_Ok in Hrun
    |by rewrite (getitem_None _ _ Hac) in Hrun].
  destruct (raw !! "artist") as [a|] eqn:Ha;
    [rewrite (getitem_Some _ _ _ Ha), bind_Ok in Hrun
    |by rewrite (getitem_None _ _ Ha) in Hrun].
  cbn zeta in Hrun. rewrite (getitem_Some _ "artist" a), bind_Ok in Hrun by done.
  injection Hrun as <- <-. eauto.
Qed.

Lemma process_recording_inv raw key (d : dict) :
  process_recording raw = Ok (key, d) →
  ∃ name len gid video,
    d = <["artist_credit" := key]> (<["video" := video]>
          (<["recording_gid" := gid]> (<["length" := len]>
            (<["recording_name" := name]> ∅)))).
Proof.
  unfold process_recording. intros Hrun.
  destruct (getitem raw "name") as [name|]; [|done]. rewrite bind_Ok in Hrun.
  destruct (getitem raw "length") as [len|]; [|done]. rewrite bind_Ok in Hrun.
  destruct (getitem raw "gid") as [gid|]; [|done]. rewrite bind_Ok in Hrun.
  destruct (getitem raw "video") as [video|]; [|done]. rewrite bind_Ok in Hrun.
  destruct (getitem raw "artist_credit") as [ac|]; [|done]. rewrite bind_Ok in Hrun.
  cbn zeta in Hrun. rewrite (getitem_Some _ "artist_credit" ac), bind_Ok in Hrun by done.
  injection Hrun as <- <-. eauto.
Qed.

Lemma process_artists_present row G A key (rr : dict) f :
  process_artists row G A = Ok (key, rr) →
  f ∈ ["id"; "artist_gid"; "artist_name"; "area"; "gender"] →
  is_Some (rr !! f).
Proof.
  intros (rr0 & Hred & Hres & _)%process_artists_inv Hf.
  apply elem_of_dom. rewrite (resolve_dom _ _ _ _ Hres). apply elem_of_dom.
  unfold reduce_row in Hred.
  destruct (getitem row "id"); [|done]. rewrite bind_Ok in Hred.
  destruct (getitem row "gid"); [|done]. rewrite bind_Ok in Hred.
  destruct (getitem row "name"); [|done]. rewrite bind_Ok in Hred.
  destruct (getitem row "area"); [|done]. rewrite bind_Ok in Hred.
  destruct (getitem row "gender"); [|done]. rewrite bind_Ok in Hred.
  injection Hred as <-.
  rewrite !elem_of_cons, elem_of_nil in Hf. destruct_or!; by subst f.
Qed.

Lemma process_single_pair (h : heap) k source joined excl src join :
  source ≠ joined →
  process h (k, grouped source joined [src] [join]) source joined excl =
    Ok ([Emit src (assign_items excl (h !!! join) (h !!! src))],
        assign_into excl src join h).
Proof.
  intros Hne.
  rewrite (process_Ok h k _ source joined excl [src] [join]).
  - rewrite for_sources_single, for_joins_cons. cbn. by rewrite assign_into_src.
  - by apply grouped_source.
  - apply grouped_joined.
Qed.

(** X12.  An artist record from [process_artists], a credit row from
    [process_artist_credit] and a recording from [process_recording], taken
    through the first merge ([artist] excluded), the re-keying of line 190
    and the second merge ([artist_credit] excluded): the re-keying never
    raises and gives the credit row's [artist_credit] as the key, and the
    final record has exactly the ten fields of [table_schema], with
    [artist_credit] the one of the credit row. *)
Theorem final_row_matches_schema row G A ka (rr : dict) rawc kc (c : dict)
    rawr kr (r : dict) :
  process_artists row G A = Ok (ka, rr) →
  process_artist_credit rawc = Ok (kc, c) →
  process_recording rawr = Ok (kr, r) →
  ∃ d1 h1 k1 d2 h2,
    process (store [rr; c])
      (ka, grouped "artists" "artist_credit_name" [0] [1])
      "artists" "artist_credit_name" "artist" = Ok ([Emit 0 d1], h1) ∧
    rekey d1 = Ok (k1, d1) ∧
    c !! "artist_credit" = Some k1 ∧
    process (store [d1; r])
      (k1, grouped "joined_artist_and_artist_credit_name" "recordings" [0] [1])
      "joined_artist_and_artist_credit_name" "recordings" "artist_credit"
    = Ok ([Emit 0 d2], h2) ∧
    (∀ f, is_Some (d2 !! f) ↔ f ∈ schema_names) ∧
    d2 !! "artist_credit" = Some k1 ∧
    d2 !! "area" = rr !! "area" ∧ d2 !! "gender" = rr !! "gender".
Proof.
  intros Hrr Hc Hr.
  pose proof (λ f, process_artists_absent row G A ka rr f Hrr) as Habsent.
  pose proof (λ f, process_artists_present row G A ka rr f Hrr) as Hpresent.
  destruct (process_artist_credit_inv _ _ _ Hc) as (ac & _ & _ & ->).
  destruct (process_recording_inv _ _ _ Hr) as (name & len & gid & video & ->).
  set (c := <["artist" := kc]> (<["artist_credit" := ac]> (∅ : dict))).
  set (r := <["artist_credit" := kr]> (<["video" := video]>
          (<["recording_gid" := gid]> (<["length" := len]>
            (<["recording_name" := name]> (∅ : dict)))))).
  set (d1 := assign_items "artist" c rr).
  set (d2 := assign_items "artist_credit" r d1).
  assert (∀ f, d1 !! f = if decide (f = "artist_credit") then Some ac
                         else rr !! f) as Hd1.
  { intros f. unfold d1, c. rewrite assign_items_lookup, !lookup_insert, lookup_empty.
    repeat case_decide; subst; done. }
  assert (∀ f, d2 !! f =
    if decide (f = "artist_credit") then Some ac
    else if decide (f = "video") then Some video
    else if decide (f = "recording_gid") then Some gid
    else if decide (f = "length") then Some len
    else if decide (f = "recording_name") then Some name
    else rr !! f) as Hd2.
  { intros f. unfold d2, r.
    rewrite assign_items_lookup, Hd1, !lookup_insert, lookup_empty.
    repeat case_decide; subst; done. }
  exists d1, (assign_into "artist" 0 1 (store [rr; c])), ac,
    d2, (assign_into "artist_credit" 0 1 (store [d1; r])).
  split_and!.
  - by rewrite process_single_pair.
  - unfold rekey. rewrite (getitem_Some d1 "artist_credit" ac); [done|].
    by rewrite Hd1.
  - done.
  - by rewrite process_single_pair.
  - intros f. rewrite Hd2. unfold schema_names, table_schema. cbn [fmap list_fmap fst].
    split.
    + intros Hsome.
      repeat (case_decide; [subst f; in_list|]).
      destruct (decide
        (f ∈ ["id"; "artist_gid"; "artist_name"; "area"; "gender"]))
        as [Hin|Hout].
      * rewrite !elem_of_cons, elem_of_nil in Hin. destruct_or!; subst f; in_list.
      * rewrite (Habsent f Hout) in Hsome. by destruct Hsome.
    + intros Hin. rewrite !elem_of_cons, elem_of_nil in Hin.
      destruct_or!; subst f; cbn; try done; apply Hpresent; in_list.
  - by rewrite Hd2.
  - by rewrite Hd2.
  - by rewrite Hd2.
Qed.

Lemma final_row_matches_schema_witness :
  ∃ d1 h1 k1 d2 h2,
    process (store [artist 1 "g1" "Bob" VNone (VStr "Male"); credit 10 1])
      (VInt 1, grouped "artists" "artist_credit_name" [0] [1])
      "artists" "artist_credit_name" "artist" = Ok ([Emit 0 d1], h1) ∧
    rekey d1 = Ok (k1, d1) ∧
    process
      (store [d1;
              <["artist_credit" := VInt 10]> (<["video" := VBool false]>
                (<["recording_gid" := VStr "r1"]> (<["length" := VInt 180]>
                  (<["recording_name" := VStr "Song"]> ∅))))])
      (k1, grouped "joined_artist_and_artist_credit_name" "recordings" [0] [1])
      "joined_artist_and_artist_credit_name" "recordings" "artist_credit"
    = Ok ([Emit 0 d2], h2) ∧
    (∀ f, is_Some (d2 !! f) ↔ f ∈ schema_names).
Proof.
  destruct (final_row_matches_schema
              (raw_artist 1 "g1" "Bob" VNone (VInt 1)) [entry 1 "Male"] []
              (VInt 1) (artist 1 "g1" "Bob" VNone (VStr "Male"))
              (credit 10 1) (VInt 1) (credit 10 1)
              (<["artist_credit" := VInt 10]> (<["video" := VBool false]>
                (<["gid" := VStr "r1"]> (<["length" := VInt 180]>
                  (<["name" := VStr "Song"]> ∅)))))
              (VInt 10)
              (<["artist_credit" := VInt 10]> (<["video" := VBool false]>
                (<["recording_gid" := VStr "r1"]> (<["length" := VInt 180]>
                  (<["recording_name" := VStr "Song"]> ∅))))))
    as (d1 & h1 & k1 & d2 & h2 & H1 & Hk & _ & H2 & Hschema & _).
  - vm_compute. reflexivity.
  - vm_compute. reflexivity.
  - vm_compute. reflexivity.
  - exists d1, h1, k1, d2, h2. by split_and!.
Defined.

(** ** Resolving twice *)

Lemma scan_twice field table (rr : dict) :
  Forall is_ref_entry table → is_Some (rr !! field) →
  ∃ rr', scan field table rr = Ok rr' ∧ scan field table rr' = Ok rr' ∧
         (∀ f, f ≠ field → rr' !! f = rr !! f).
Proof.
  intros Htab [v Hv].
  destruct (scan_shape field table rr v Htab Hv) as (w & Hscan & Hw).
  exists (<[field := w]> rr). split; [done|]. split.
  - destruct Hw as [[-> _]|(g & s & _ & _ & ->)].
    + by rewrite (insert_id rr field v Hv) in Hscan |- *.
    + apply (scan_string_noop field table _ s); [|by rewrite lookup_insert_eq].
      eapply Forall_impl; [exact Htab|]. apply is_ref_entry_has_int_id.
  - intros f Hf. by rewrite lookup_insert_ne.
Qed.

(** X8.  On tables of well-shaped entries (an id may even occur twice) the
    resolver returns, and applied to the record it returned it returns that
    same record: resolving again changes nothing. *)
Theorem resolve_twice (rr : dict) G A :
  Forall is_ref_entry G → Forall is_ref_entry A →
  is_Some (rr !! "gender") → is_Some (rr !! "area") →
  ∃ rr', resolve rr G A = Ok rr' ∧ resolve rr' G A = Ok rr'.
Proof.
  intros HG HA [vg Hg] Ha.
  assert (∃ m, (if truthy vg then scan "gender" G rr else Ok rr) = Ok m ∧
               is_Some (m !! "area") ∧
               ∃ vg', m !! "gender" = Some vg' ∧
                 (if truthy vg' then scan "gender" G m else Ok m) = Ok m)
    as (m & Hm & Harea & vg' & Hg' & Hagain).
  { destruct (truthy vg) eqn:Ht.
    - destruct (scan_twice "gender" G rr HG (ex_intro _ vg Hg))
        as (m & Hscan & Hscan' & Hkeep).
      exists m. split; [done|]. split; [by rewrite Hkeep|].
      destruct (m !! "gender") as [vg'|] eqn:Hvg'.
      + exists vg'. split; [done|]. by destruct (truthy vg').
      + apply not_elem_of_dom in Hvg'. rewrite (scan_dom _ _ _ _ Hscan) in Hvg'.
        destruct Hvg'. apply elem_of_dom. eauto.
    - exists rr. split; [done|]. split; [done|]. exists vg. by rewrite Ht. }
  destruct (scan_twice "area" A m HA Harea) as (rr' & Hscan & Hscan' & Hkeep).
  exists rr'. split.
  - by rewrite (resolve_unfold _ _ _ _ Hg), Hm, bind_Ok.
  - assert (rr' !! "gender" = Some vg') as Hg'' by (by rewrite Hkeep).
    rewrite (resolve_unfold _ _ _ _ Hg'').
    assert ((if truthy vg' then scan "gender" G rr' else Ok rr') = Ok rr')
      as ->; [|by rewrite bind_Ok].
    destruct (truthy vg'); [|done].
    pose proof (scan_field_only "gender" G m rr') as Hsame.
    rewrite Hagain in Hsame. rewrite Hg', Hg'' in Hsame. specialize (Hsame eq_refl).
    destruct (scan "gender" G rr') as [n|] eqn:Hn; [|done].
    f_equal. apply map_eq. intros f.
    destruct (decide (f = "gender")) as [->|Hne].
    + congruence.
    + by rewrite (scan_other_field _ _ _ _ _ Hne Hn).
Qed.

Lemma resolve_twice_witness :
  ∃ rr', resolve (artist 5 "g1" "Bob" (VInt 7) (VInt 1))
           [entry 1 "Male"; entry 1 "M"] [entry 7 "Paris"] = Ok rr' ∧
         resolve rr' [entry 1 "Male"; entry 1 "M"] [entry 7 "Paris"] = Ok rr'.
Proof.
  apply (resolve_twice (artist 5 "g1" "Bob" (VInt 7) (VInt 1))).
  - repeat constructor; apply entry_is_ref_entry.
  - repeat constructor; apply entry_is_ref_entry.
  - rewrite artist_gender. eauto.
  - rewrite artist_area. eauto.
Defined.

(** ** The order of the yields *)

Lemma for_joins_objs excl src joins (h : heap) :
  obj <$> (for_joins excl src joins h).1 = replicate (length joins) src.
Proof.
  revert h. induction joins as [|j joins IH]; intros h; [done|].
  rewrite for_joins_cons. cbn. by rewrite IH.
Qed.

(** X13.  The records come out left-hand record by left-hand record, in the
    order of the group, each left-hand object as many times in a row as the
    right group has members; a right-hand object is never yielded. *)
Theorem process_yield_order (h : heap) k gd source joined excl sources joins :
  gd !! source = Some sources → gd !! joined = Some joins →
  ∃ out h', process h (k, gd) source joined excl = Ok (out, h') ∧
    obj <$> out = sources ≫= λ src, replicate (length joins) src.
Proof.
  intros Hs Hj.
  exists (for_sources excl sources joins h).1, (for_sources excl sources joins h).2.
  split.
  - rewrite (process_Ok h k gd source joined excl sources joins Hs Hj).
    by destruct (for_sources _ _ _ _).
  - clear Hs Hj. revert h. induction sources as [|src sources IH]; intros h; [done|].
    rewrite for_sources_cons. cbn zeta. cbn [fst].
    rewrite fmap_app, for_joins_objs, IH. reflexivity.
Qed.

Lemma process_yield_order_witness :
  ∃ out h',
    process (store [artist 1 "g1" "Bob" VNone VNone;
                    artist 2 "g2" "Ann" VNone VNone;
                    credit 10 1; credit 11 1])
      (VInt 1, grouped "artists" "artist_credit_name" [0; 1] [2; 3])
      "artists" "artist_credit_name" "artist" = Ok (out, h') ∧
    obj <$> out = [0; 0; 1; 1].
Proof.
  apply (process_yield_order _ _ _ "artists" "artist_credit_name" "artist"
           [0; 1] [2; 3]); reflexivity.
Defined.
